(** * Query-to-concept mapper: a shallow embedding of
      [backend/scraper/query_concept_mapper.py]

    The development follows the class [QueryConceptMapper]:
    - text primitives of Python [str] used by the mapper;
    - the fragment of [re] its seventeen patterns are written in,
      as a backtracking matcher with capture groups;
    - insertion-ordered dictionaries and the concept index builder;
    - the intent classifier, the fallback extractor, the relation and
      resource resolvers, [analyze_query] and [identify_knowledge_gaps];
    - the properties of the specification, one theorem each.

    Characters are the 8-bit [ascii] type read as code points 0..255
    (Latin-1); strings are [String.string].  The curriculum is taken as
    already loaded: a document whose fields may each be missing. *)

From Stdlib Require Import String Ascii NArith List Bool Arith Lia.
From stdpp Require Import base option list gmap strings.

Local Open Scope N_scope.

(** ** Python [str] primitives *)

Module Str.

Definition code (c : ascii) : N := N_of_ascii c.

(** [c.isspace()] for a code point below 256: TAB..CR, FS..US, SPACE,
    NEL and NBSP.  The same predicate drives [strip], [split] and the
    [\s] class of [re] on [str] patterns. *)
Definition isspace (c : ascii) : bool :=
  let n := code c in
  ((9 <=? n) && (n <=? 13)) || ((28 <=? n) && (n <=? 32))
  || (n =? 133) || (n =? 160).

(** [c.lower()] for a code point below 256: A..Z and the Latin-1
    capitals (all of U+00C0..U+00DE but the multiplication sign). *)
Definition lower_char (c : ascii) : ascii :=
  let n := code c in
  if ((65 <=? n) && (n <=? 90))
     || ((192 <=? n) && (n <=? 222) && negb (n =? 215))
  then ascii_of_N (n + 32) else c.

(** [s.lower()] *)
Fixpoint lower (s : string) : string :=
  match s with
  | EmptyString => EmptyString
  | String c s' => String (lower_char c) (lower s')
  end.

(** [s.replace('_', ' ')] *)
Fixpoint replace_underscore (s : string) : string :=
  match s with
  | EmptyString => EmptyString
  | String c s' =>
      String (if Ascii.eqb c "_" then " "%char else c) (replace_underscore s')
  end.

Fixpoint lstrip (s : string) : string :=
  match s with
  | EmptyString => EmptyString
  | String c s' => if isspace c then lstrip s' else s
  end.

Fixpoint rstrip (s : string) : string :=
  match s with
  | EmptyString => EmptyString
  | String c s' =>
      match rstrip s' with
      | EmptyString => if isspace c then EmptyString else String c EmptyString
      | t => String c t
      end
  end.

(** [s.strip()] *)
Definition strip (s : string) : string := rstrip (lstrip s).

(** [s.startswith(p)] *)
Fixpoint startswith (p s : string) : bool :=
  match p, s with
  | EmptyString, _ => true
  | String a p', String b s' => Ascii.eqb a b && startswith p' s'
  | String _ _, EmptyString => false
  end.

(** [sub in s] on strings: [sub] occurs in [s] as a contiguous run. *)
Fixpoint contains (sub s : string) : bool :=
  startswith sub s ||
  match s with
  | EmptyString => false
  | String _ s' => contains sub s'
  end.

(** [s.split()] with no separator: the maximal runs of non-space
    characters, in order.  [cur] is the run being read, reversed. *)
Fixpoint split_from (cur : list ascii) (s : string) : list string :=
  let flush := match cur with
               | [] => []
               | _ => [string_of_list_ascii (rev cur)]
               end in
  match s with
  | EmptyString => flush
  | String c s' =>
      if isspace c then flush ++ split_from [] s'
      else split_from (c :: cur) s'
  end.

Definition split (s : string) : list string := split_from [] s.

(** [x in l] for a list of strings. *)
Definition mem (x : string) (l : list string) : bool :=
  existsb (String.eqb x) l.

(** [l.index(x)]; [None] stands for the [ValueError] of a missing item. *)
Fixpoint index_of (x : string) (l : list string) : option nat :=
  match l with
  | [] => None
  | y :: l' => if String.eqb y x then Some 0%nat
               else S <$> index_of x l'
  end.

End Str.

Local Close Scope N_scope.

(** ** Exceptions *)

Inductive exn := KeyError | AttributeError | IndexError.

Inductive outcome (A : Type) : Type :=
| Ok (a : A)
| Raise (e : exn).
Arguments Ok {A} a.
Arguments Raise {A} e.

#[global] Instance outcome_ret : MRet outcome := @Ok.
#[global] Instance outcome_bind : MBind outcome :=
  fun A B f c => match c with Ok a => f a | Raise e => Raise e end.

(** ** The fragment of [re] used by the pattern table *)

Module Re.

Inductive cclass :=
| CSpace    (* \s *)
| CAny.     (* .  : anything but a newline *)

Inductive regex :=
| Lit (s : string)             (* literal text *)
| Many1 (c : cclass)           (* c+  (greedy) *)
| Group (n : nat) (r : regex)  (* the n-th parenthesis, n >= 1 *)
| Alt (r1 r2 : regex)          (* r1|r2 *)
| Opt (r : regex)              (* r?  (greedy) *)
| Cat (r1 r2 : regex).         (* r1 r2 *)

Definition in_class (c : cclass) (a : ascii) : bool :=
  match c with
  | CSpace => Str.isspace a
  | CAny => negb (Ascii.eqb a "010")
  end.

(** Number of capturing groups: [len(match.groups())]. *)
Fixpoint ngroups (r : regex) : nat :=
  match r with
  | Lit _ | Many1 _ => 0
  | Group _ r => S (ngroups r)
  | Alt a b | Cat a b => ngroups a + ngroups b
  | Opt a => ngroups a
  end.

(** [match.groups()]: slot [i] holds group [i+1], [None] when the group
    took no part in the match. *)
Abbreviation groups := (list (option string)).

(** Literal text under [re.IGNORECASE]: a character of the text matches
    when its lower-case form is the (lower-cased) pattern character. *)
Fixpoint lit (l s : string) : option string :=
  match l, s with
  | EmptyString, _ => Some s
  | String a l', String b s' =>
      if Ascii.eqb (Str.lower_char a) (Str.lower_char b) then lit l' s'
      else None
  | String _ _, EmptyString => None
  end.

(** Greedy [c+]: take one character of the class, prefer taking more,
    fall back to the continuation. *)
Fixpoint many1 {A} (c : cclass) (s : string) (k : string -> option A)
  : option A :=
  match s with
  | EmptyString => None
  | String a s' =>
      if in_class c a then
        match many1 c s' k with
        | Some x => Some x
        | None => k s'
        end
      else None
  end.

(** The text consumed between the suffixes [s] and [s']. *)
Definition consumed (s s' : string) : string :=
  String.substring 0 (String.length s - String.length s') s.

(** Backtracking matcher at the head of [s]; the continuation receives
    the remaining text and the groups set so far. *)
Fixpoint run (r : regex) (s : string) (g : groups)
         (k : string -> groups -> option groups) {struct r}
  : option groups :=
  match r with
  | Lit l => match lit l s with Some s' => k s' g | None => None end
  | Many1 c => many1 c s (fun s' => k s' g)
  | Group n r1 =>
      run r1 s g (fun s' g' => k s' (<[pred n := Some (consumed s s')]> g'))
  | Alt a b =>
      match run a s g k with
      | Some x => Some x
      | None => run b s g k
      end
  | Opt a =>
      match run a s g k with
      | Some x => Some x
      | None => k s g
      end
  | Cat a b => run a s g (fun s' g' => run b s' g' k)
  end.

(** [re.match(r, s)]: groups of the first successful path. *)
Definition match_here (r : regex) (s : string) : option groups :=
  run r s (replicate (ngroups r) None) (fun _ g => Some g).

(** [re.search(r, s, re.IGNORECASE)]: leftmost start position. *)
Fixpoint search (r : regex) (s : string) : option groups :=
  match match_here r s with
  | Some g => Some g
  | None =>
      match s with
      | EmptyString => None
      | String _ s' => search r s'
      end
  end.

(** [match.group(n)] for [n >= 1]. *)
Definition group (g : groups) (n : nat) : option string :=
  mjoin (g !! pred n).

(** Concatenation of a sequence of pieces. *)
Fixpoint cat (rs : list regex) : regex :=
  match rs with
  | [] => Lit EmptyString
  | [r] => r
  | r :: rs' => Cat r (cat rs')
  end.

End Re.

(** ** Insertion-ordered dictionaries with string keys

    A Python [dict] iterates in order of first insertion; assigning to a
    key already present replaces the value and keeps the key's place. *)

Module Dict.

Definition t (V : Type) := list (string * V).

Definition empty {V} : t V := [].

(** [d.get(k)] / [d[k]] *)
Fixpoint get {V} (k : string) (d : t V) : option V :=
  match d with
  | [] => None
  | (k', v) :: d' => if String.eqb k' k then Some v else get k d'
  end.

(** [d[k] = v] *)
Fixpoint set {V} (k : string) (v : V) (d : t V) : t V :=
  match d with
  | [] => [(k, v)]
  | (k', v') :: d' =>
      if String.eqb k' k then (k', v) :: d' else (k', v') :: set k v d'
  end.

(** [d.keys()] *)
Definition keys {V} (d : t V) : list string := map fst d.

(** [d[k]] where a missing key raises. *)
Definition getitem {V} (k : string) (d : t V) : outcome V :=
  match get k d with
  | Some v => Ok v
  | None => Raise KeyError
  end.

End Dict.

(** ** The curriculum document

    Every field is read with [.get(key, default)], so each may be absent. *)

Record resource := {
  r_title : option string;
  r_url : option string;
  r_source : option string
}.

Record topic_entry := {
  t_name : option string;
  t_display_name : option string;
  t_subtopics : option (list string);
  t_resources : option (list resource)
}.

Record curriculum := {
  topics : option (list topic_entry)
}.

(** ** Concept index entries

    The two dictionary shapes stored in the index, told apart by their
    ["type"] field. *)

Inductive entry :=
| Topic (display_name : string) (subtopics : list string)
        (resources : list resource)
| Subtopic (parent_topic : string) (display_name : string)
           (resources : list resource).

(** [info.get("subtopics", [])] *)
Definition entry_subtopics (e : entry) : list string :=
  match e with
  | Topic _ subs _ => subs
  | Subtopic _ _ _ => []
  end.

(** [info.get("resources", [])] *)
Definition entry_resources (e : entry) : list resource :=
  match e with
  | Topic _ _ rs => rs
  | Subtopic _ _ rs => rs
  end.

(** An index slot holds a reference to an entry dictionary.  Entries are
    never mutated once built, so a reference is the object's identity
    (its allocation number) together with its contents; two slots alias
    exactly when they carry the same [oid]. *)
Record object := {
  oid : nat;
  info : entry
}.

Definition concept_index_t := Dict.t object.

(** Loops whose body may raise. *)
Fixpoint for_each {A S} (l : list A) (s : S) (body : S -> A -> outcome S)
  : outcome S :=
  match l with
  | [] => Ok s
  | x :: l' => s' ← body s x; for_each l' s' body
  end.

(** ** The query mapper *)

Module QueryConceptMapper.

Import Re.

(** *** [self.query_patterns] *)

Definition ws : regex := Many1 CSpace.               (* \s+ *)
Definition dots (n : nat) : regex := Group n (Many1 CAny).   (* (.+) *)
Definition either (n : nat) (a b : string) : regex :=       (* (a|b) *)
  Group n (Alt (Lit a) (Lit b)).

Definition definition_patterns : list regex := [
  (* what is (a|an)?\s+(.+) *)
  cat [Lit "what is "; Opt (either 1 "a" "an"); ws; dots 2];
  (* define\s+(.+) *)
  cat [Lit "define"; ws; dots 1];
  (* explain\s+(.+) *)
  cat [Lit "explain"; ws; dots 1];
  (* describe\s+(.+) *)
  cat [Lit "describe"; ws; dots 1]
].

Definition comparison_patterns : list regex := [
  (* (difference|compare)\s+between\s+(.+)\s+and\s+(.+) *)
  cat [either 1 "difference" "compare"; ws; Lit "between"; ws; dots 2; ws;
       Lit "and"; ws; dots 3];
  (* (.+)\s+vs\s+(.+) *)
  cat [dots 1; ws; Lit "vs"; ws; dots 2];
  (* how\s+does\s+(.+)\s+differ\s+from\s+(.+) *)
  cat [Lit "how"; ws; Lit "does"; ws; dots 1; ws; Lit "differ"; ws;
       Lit "from"; ws; dots 2]
].

Definition implementation_patterns : list regex := [
  (* how\s+to\s+implement\s+(.+) *)
  cat [Lit "how"; ws; Lit "to"; ws; Lit "implement"; ws; dots 1];
  (* implementation\s+of\s+(.+) *)
  cat [Lit "implementation"; ws; Lit "of"; ws; dots 1];
  (* code\s+for\s+(.+) *)
  cat [Lit "code"; ws; Lit "for"; ws; dots 1];
  (* program\s+for\s+(.+) *)
  cat [Lit "program"; ws; Lit "for"; ws; dots 1]
].

Definition complexity_patterns : list regex := [
  (* (time|space)\s+complexity\s+of\s+(.+) *)
  cat [either 1 "time" "space"; ws; Lit "complexity"; ws; Lit "of"; ws;
       dots 2];
  (* how\s+(efficient|fast)\s+is\s+(.+) *)
  cat [Lit "how"; ws; either 1 "efficient" "fast"; ws; Lit "is"; ws; dots 2];
  (* performance\s+of\s+(.+) *)
  cat [Lit "performance"; ws; Lit "of"; ws; dots 1]
].

Definition application_patterns : list regex := [
  (* (use|application)\s+of\s+(.+) *)
  cat [either 1 "use" "application"; ws; Lit "of"; ws; dots 2];
  (* when\s+to\s+use\s+(.+) *)
  cat [Lit "when"; ws; Lit "to"; ws; Lit "use"; ws; dots 1];
  (* where\s+is\s+(.+)\s+used *)
  cat [Lit "where"; ws; Lit "is"; ws; dots 1; ws; Lit "used"]
].

Definition query_patterns : Dict.t (list regex) := [
  ("definition", definition_patterns);
  ("comparison", comparison_patterns);
  ("implementation", implementation_patterns);
  ("complexity", complexity_patterns);
  ("application", application_patterns)
].

(** *** [_build_concept_index] *)

Record builder := {
  next_oid : nat;
  partial_index : concept_index_t
}.

(** Evaluating a dictionary display allocates a new object. *)
Definition new_object (e : entry) (st : builder) : object * builder :=
  ({| oid := next_oid st; info := e |},
   {| next_oid := S (next_oid st); partial_index := partial_index st |}).

(** [concept_index[k] = o] *)
Definition store (k : string) (o : object) (st : builder) : builder :=
  {| next_oid := next_oid st;
     partial_index := Dict.set k o (partial_index st) |}.

(** [concept_index[k] = concept_index[src]] *)
Definition alias (k src : string) (st : builder) : outcome builder :=
  o ← Dict.getitem src (partial_index st); Ok (store k o st).

(** Body of the inner loop over [topic_entry.get("subtopics", [])]. *)
Definition add_subtopic (topic_name : string) (topic_resources : list resource)
           (st : builder) (subtopic : string) : builder :=
  let '(o, st) :=
    new_object
      (Subtopic topic_name subtopic
         (List.filter
            (fun r => Str.contains (Str.lower subtopic)
                                   (Str.lower (default EmptyString (r_title r))))
            topic_resources))
      st in
  store (Str.lower subtopic) o st.

(** Body of the outer loop over [curriculum.get("topics", [])]. *)
Definition add_topic (st : builder) (topic_entry : topic_entry)
  : outcome builder :=
  let topic_name := default EmptyString (t_name topic_entry) in
  let '(o, st) :=
    new_object
      (Topic (default topic_name (t_display_name topic_entry))
             (default [] (t_subtopics topic_entry))
             (default [] (t_resources topic_entry)))
      st in
  let st := store topic_name o st in
  let alt_name := Str.replace_underscore topic_name in
  st ← (if negb (String.eqb alt_name topic_name)
        then alias alt_name topic_name st else Ok st);
  let display_name :=
    Str.lower (default EmptyString (t_display_name topic_entry)) in
  st ← (if negb (String.eqb display_name EmptyString)
           && negb (String.eqb display_name topic_name)
           && negb (String.eqb display_name alt_name)
        then alias display_name topic_name st else Ok st);
  Ok (fold_left
        (add_subtopic topic_name (default [] (t_resources topic_entry)))
        (default [] (t_subtopics topic_entry)) st).

Definition build_from (st : builder) (cur : curriculum) : outcome builder :=
  for_each (default [] (topics cur)) st add_topic.

Definition _build_concept_index (cur : curriculum) : outcome concept_index_t :=
  st ← build_from {| next_oid := 0; partial_index := Dict.empty |} cur;
  Ok (partial_index st).

(** *** [_identify_query_type] *)

(** [match.group(n).strip()]: an unset group is [None], which has no
    [strip]. *)
Definition group_strip (m : groups) (n : nat) : outcome string :=
  match group m n with
  | Some t => Ok (Str.strip t)
  | None => Raise AttributeError
  end.

(** The inner loop; [Ok None] when it ends without returning. *)
Fixpoint try_patterns (query_type : string) (patterns : list regex)
         (query : string) : outcome (option (string * list string)) :=
  match patterns with
  | [] => Ok None
  | pattern :: rest =>
      match search pattern query with
      | Some m =>
          if String.eqb query_type "comparison" then
            if 2 <=? length m then
              concept1 ← group_strip m 2;
              concept2 ← (if 3 <=? length m then group_strip m 3
                          else Ok EmptyString);
              Ok (Some (query_type, [concept1; concept2]))
            else try_patterns query_type rest query
          else
            if 1 <=? length m then
              concept ← group_strip m (length m);
              Ok (Some (query_type, [concept]))
            else try_patterns query_type rest query
      | None => try_patterns query_type rest query
      end
  end.

Fixpoint identify_in (table : Dict.t (list regex)) (query : string)
  : outcome (string * list string) :=
  match table with
  | [] => Ok ("general", [])
  | (query_type, patterns) :: table' =>
      r ← try_patterns query_type patterns query;
      match r with
      | Some res => Ok res
      | None => identify_in table' query
      end
  end.

Definition _identify_query_type (query : string)
  : outcome (string * list string) :=
  identify_in query_patterns query.

Section Mapper.

(** [self.concept_index] *)
Variable concept_index : concept_index_t.

(** *** [_extract_concepts_from_query] *)

(** Loop over the words of one key, left by [break] at the first hit. *)
Fixpoint scan_words (concept_name : string) (concept_words : list string)
         (query : string) (extracted_concepts : list string)
  : list string :=
  match concept_words with
  | [] => extracted_concepts
  | word :: rest =>
      if (3 <? String.length word) && Str.mem word (Str.split query)
      then extracted_concepts ++ [concept_name]
      else scan_words concept_name rest query extracted_concepts
  end.

Definition _extract_concepts_from_query (query : string) : list string :=
  let extracted_concepts :=
    fold_left
      (fun acc concept_name =>
         if Str.contains concept_name query then acc ++ [concept_name]
         else acc)
      (Dict.keys concept_index) [] in
  match extracted_concepts with
  | [] =>
      fold_left
        (fun acc concept_name =>
           scan_words concept_name (Str.split concept_name) query acc)
        (Dict.keys concept_index) extracted_concepts
  | _ => extracted_concepts
  end.

(** *** [_find_related_concepts] *)

Definition related_step (related_concepts : list string) (concept : string)
  : list string :=
  match Dict.get concept concept_index with
  | Some o =>
      match info o with
      | Topic _ subtopics _ => related_concepts ++ subtopics
      | Subtopic parent_topic _ _ =>
          match Dict.get parent_topic concept_index with
          | Some parent => related_concepts ++ entry_subtopics (info parent)
          | None => related_concepts
          end
      end
  | None => related_concepts
  end.

Definition _find_related_concepts (concepts : list string) : list string :=
  let related_concepts := fold_left related_step concepts [] in
  let related_concepts :=
    List.filter (fun c => negb (Str.mem c concepts)) related_concepts in
  take 5 related_concepts.

(** *** [_get_relevant_resources] *)

(** The four-field dictionary built for every returned resource. *)
Record tagged_resource := {
  title : string;
  url : string;
  source : string;
  concept : string
}.

Definition tag (concept : string) (r : resource) : tagged_resource :=
  {| title := default EmptyString (r_title r);
     url := default EmptyString (r_url r);
     source := default EmptyString (r_source r);
     concept := concept |}.

(** First loop: gather the resources of every indexed concept. *)
Definition gather_step (resources : list tagged_resource) (concept : string)
  : list tagged_resource :=
  match Dict.get concept concept_index with
  | Some o =>
      fold_left (fun acc r => acc ++ [tag concept r])
                (entry_resources (info o)) resources
  | None => resources
  end.

(** Second loop: [unique_resources] and [seen_urls]. *)
Definition unique_step (st : list tagged_resource * gset string)
           (r : tagged_resource) : list tagged_resource * gset string :=
  let '(unique_resources, seen_urls) := st in
  if negb (String.eqb (url r) EmptyString)
     && negb (bool_decide (url r ∈ seen_urls))
  then (unique_resources ++ [r], seen_urls ∪ {[url r]})
  else (unique_resources, seen_urls).

Definition _get_relevant_resources (concepts : list string)
  : list tagged_resource :=
  let resources := fold_left gather_step concepts [] in
  let unique_resources := fst (fold_left unique_step resources ([], ∅)) in
  take 10 unique_resources.

(** *** [analyze_query] *)

Record analysis := {
  original_query : string;
  query_type : string;
  extracted_concepts : list string;
  related_concepts : list string;
  resources : list tagged_resource
}.

Definition analyze_query (query : string) : outcome analysis :=
  let clean_query := Str.strip (Str.lower query) in
  '(query_type, extracted_concepts) ← _identify_query_type clean_query;
  let extracted_concepts :=
    match extracted_concepts with
    | [] => _extract_concepts_from_query clean_query
    | _ => extracted_concepts
    end in
  let related_concepts := _find_related_concepts extracted_concepts in
  let resources := _get_relevant_resources extracted_concepts in
  Ok {| original_query := query;
        query_type := query_type;
        extracted_concepts := extracted_concepts;
        related_concepts := related_concepts;
        resources := resources |}.

(** *** [identify_knowledge_gaps] *)

(** The [if]/[elif] chain over [parent_topic]. *)
Definition advanced_concepts (parent_topic : string) : list string :=
  if String.eqb parent_topic "arrays" then
    ["array searching"; "array sorting"; "multidimensional arrays"]
  else if String.eqb parent_topic "linked_lists" then
    ["doubly linked list"; "circular linked list"]
  else if String.eqb parent_topic "stacks"
          || String.eqb parent_topic "queues" then
    ["stack applications"; "queue applications"]
  else if String.eqb parent_topic "trees" then
    ["binary search tree"; "balanced tree"]
  else if String.eqb parent_topic "graphs" then
    ["shortest path"; "minimum spanning tree"]
  else if String.eqb parent_topic "sorting_algorithms" then
    ["merge sort"; "quick sort"; "heap sort"]
  else if String.eqb parent_topic "searching_algorithms" then
    ["binary search"; "hashing"]
  else if String.eqb parent_topic "dynamic_programming" then
    ["memoization"; "tabulation"]
  else [].

(** [for i in range(idx): prerequisite_concepts.append(subtopics[i])] *)
Definition append_before (subtopics : list string) (idx : nat)
           (prerequisite_concepts : list string) : outcome (list string) :=
  for_each (seq 0 idx) prerequisite_concepts
    (fun acc i =>
       match subtopics !! i with
       | Some s => Ok (acc ++ [s])
       | None => Raise IndexError
       end).

(** Body of the loop over [analysis["extracted_concepts"]]; the state is
    [(knowledge_gaps, prerequisite_concepts)]. *)
Definition gap_step (st : list string * list string) (concept : string)
  : outcome (list string * list string) :=
  let '(knowledge_gaps, prerequisite_concepts) := st in
  match Dict.get concept concept_index with
  | Some o =>
      match info o with
      | Subtopic parent_topic display_name _ =>
          prerequisite_concepts ←
            match Dict.get parent_topic concept_index with
            | Some parent =>
                let subtopics := entry_subtopics (info parent) in
                match Str.index_of display_name subtopics with
                | Some idx =>
                    append_before subtopics idx prerequisite_concepts
                | None => Ok prerequisite_concepts   (* except ValueError *)
                end
            | None => Ok prerequisite_concepts
            end;
          Ok (knowledge_gaps ++ advanced_concepts parent_topic,
              prerequisite_concepts)
      | Topic _ _ _ => Ok st
      end
  | None => Ok st
  end.

Record gap_analysis := {
  query_analysis : analysis;
  prerequisite_concepts : list string;
  knowledge_gaps : list string;
  prerequisite_resources : list tagged_resource;
  gap_resources : list tagged_resource
}.

(** [set(l)].  A Python set iterates in an unspecified order; [elements]
    stands for [list(s)] and fixes one order, of which only the members
    are used in the statements below. *)
Definition pyset (l : list string) : gset string := list_to_set l.

Definition identify_knowledge_gaps (query : string) : outcome gap_analysis :=
  analysis ← analyze_query query;
  '(knowledge_gaps, prerequisite_concepts) ←
    for_each (extracted_concepts analysis) ([], []) gap_step;
  let prerequisite_concepts :=
    elements (pyset prerequisite_concepts
              ∖ pyset (extracted_concepts analysis)) in
  let knowledge_gaps :=
    elements (pyset knowledge_gaps
              ∖ pyset (extracted_concepts analysis)
              ∖ pyset prerequisite_concepts) in
  let prerequisite_resources :=
    _get_relevant_resources prerequisite_concepts in
  let gap_resources := _get_relevant_resources knowledge_gaps in
  Ok {| query_analysis := analysis;
        prerequisite_concepts := prerequisite_concepts;
        knowledge_gaps := knowledge_gaps;
        prerequisite_resources := prerequisite_resources;
        gap_resources := gap_resources |}.

End Mapper.

(** *** [_load_curriculum] and [__init__]

    Reading the curriculum file is the one effect of the class.  Its
    outcome is an input of the model: a decoded document of the
    curriculum's shape (an object whose fields, where present, have their
    expected types), or one of the two exceptions that [_load_curriculum]
    catches.  A decoded value of another shape, on which the constructor
    goes on to raise, and an exception that [_load_curriculum] does not
    catch, are not outcomes of this type: nothing is stated about them. *)

Inductive load_error := JSONDecodeError | IOError.

Inductive file_read :=
| Decoded (document : curriculum)
| Failed (e : load_error).

Definition _load_curriculum (f : file_read) : curriculum :=
  match f with
  | Decoded document => document
  | Failed _ => {| topics := Some [] |}
  end.

(** The attributes of [self] that the methods read. *)
Record self_t := {
  self_curriculum : curriculum;
  self_concept_index : concept_index_t
}.

Definition __init__ (f : file_read) : outcome self_t :=
  let curriculum := _load_curriculum f in
  concept_index ← _build_concept_index curriculum;
  Ok {| self_curriculum := curriculum; self_concept_index := concept_index |}.

End QueryConceptMapper.

(** ** Auxiliary definitions used to state the properties *)

Module Analysis.

Import Re QueryConceptMapper.

(** [sets r i]: every successful match of [r] fills slot [i] of
    [match.groups()]. *)
Fixpoint sets (r : regex) (i : nat) : bool :=
  match r with
  | Lit _ | Many1 _ | Opt _ => false
  | Group n r1 => Nat.eqb (pred n) i || sets r1 i
  | Alt a b => sets a i && sets b i
  | Cat a b => sets a i || sets b i
  end.

(** Slot [i] of [match.groups()] holds a text. *)
Definition filled (g : groups) (i : nat) : Prop := is_Some (mjoin (g !! i)).

(** A pattern whose match always reaches a [return] of
    [_identify_query_type], and whose groups read there are always set. *)
Definition returns_cleanly (query_type : string) (r : regex) : bool :=
  if String.eqb query_type "comparison" then
    (2 <=? ngroups r) && sets r 1
    && (if 3 <=? ngroups r then sets r 2 else true)
  else
    (1 <=? ngroups r) && sets r (pred (ngroups r)).

(** Every pattern of a table returns cleanly for its category. *)
Definition clean (table : Dict.t (list regex)) : bool :=
  forallb (fun '(qt, ps) => forallb (returns_cleanly qt) ps) table.

(** The pattern table in declaration order, each pattern with its
    category. *)
Definition declared (table : Dict.t (list regex)) : list (string * regex) :=
  flat_map (fun '(query_type, patterns) => map (pair query_type) patterns)
           table.

(** The capture rule of the classifier: what a match [m] of a pattern of
    category [query_type] yields as concept list. *)
Definition capture_rule (query_type : string) (m : groups)
           (concepts : list string) : Prop :=
  if String.eqb query_type "comparison" then
    2 <= length m /\
    exists t2 c2,
      group m 2 = Some t2 /\
      (if 3 <=? length m
       then exists t3, group m 3 = Some t3 /\ c2 = Str.strip t3
       else c2 = EmptyString) /\
      concepts = [Str.strip t2; c2]
  else
    1 <= length m /\
    exists t, group m (length m) = Some t /\ concepts = [Str.strip t].

(** The first pattern, in the given order, found anywhere in the query,
    with its category and the groups of the match. *)
Fixpoint first_match (l : list (string * regex)) (query : string)
  : option (string * groups) :=
  match l with
  | [] => None
  | (query_type, pattern) :: l' =>
      match search pattern query with
      | Some m => Some (query_type, m)
      | None => first_match l' query
      end
  end.

(** *** The registration log of the index builder

    What [_build_concept_index] assigns, in order: for each topic its
    canonical name, the space form when it differs, the lower-cased display
    name when it is non-empty and differs from both, all three bound to the
    one topic object; then one new object per subtopic under the
    lower-cased subtopic.  [n] is the identity of the next object. *)

Definition topic_object (n : nat) (t : topic_entry) : object :=
  let topic_name := default EmptyString (t_name t) in
  {| oid := n;
     info := Topic (default topic_name (t_display_name t))
                   (default [] (t_subtopics t))
                   (default [] (t_resources t)) |}.

Definition subtopic_object (n : nat) (t : topic_entry) (subtopic : string)
  : object :=
  {| oid := n;
     info := Subtopic (default EmptyString (t_name t)) subtopic
               (List.filter
                  (fun r => Str.contains (Str.lower subtopic)
                              (Str.lower (default EmptyString (r_title r))))
                  (default [] (t_resources t))) |}.

Fixpoint subtopic_writes (n : nat) (t : topic_entry) (subs : list string)
  : list (string * object) :=
  match subs with
  | [] => []
  | s :: subs' =>
      (Str.lower s, subtopic_object n t s) :: subtopic_writes (S n) t subs'
  end.

Definition canonical_name (t : topic_entry) : string :=
  default EmptyString (t_name t).
Definition space_name (t : topic_entry) : string :=
  Str.replace_underscore (canonical_name t).
Definition folded_display_name (t : topic_entry) : string :=
  Str.lower (default EmptyString (t_display_name t)).

Definition name_writes (n : nat) (t : topic_entry) : list (string * object) :=
  let o := topic_object n t in
  [(canonical_name t, o)]
  ++ (if negb (String.eqb (space_name t) (canonical_name t))
      then [(space_name t, o)] else [])
  ++ (if negb (String.eqb (folded_display_name t) EmptyString)
         && negb (String.eqb (folded_display_name t) (canonical_name t))
         && negb (String.eqb (folded_display_name t) (space_name t))
      then [(folded_display_name t, o)] else []).

Definition topic_writes (n : nat) (t : topic_entry) : list (string * object) :=
  name_writes n t ++ subtopic_writes (S n) t (default [] (t_subtopics t)).

Fixpoint writes (n : nat) (ts : list topic_entry) : list (string * object) :=
  match ts with
  | [] => []
  | t :: ts' =>
      topic_writes n t
      ++ writes (S n + length (default [] (t_subtopics t))) ts'
  end.

(** Performing a log of assignments on a dictionary. *)
Definition replay (ws : list (string * object)) (d : concept_index_t)
  : concept_index_t :=
  fold_left (fun d w => Dict.set w.1 w.2 d) ws d.

(** *** The resource resolver, declaratively *)

(** Every indexed concept's stored resources, tagged with the concept, in
    encounter order. *)
Definition gathered (idx : concept_index_t) (concepts : list string)
  : list tagged_resource :=
  flat_map
    (fun c => match Dict.get c idx with
              | Some o => map (tag c) (entry_resources (info o))
              | None => []
              end)
    concepts.

(** [r] carries a url, and none of the resources met [before] carries it. *)
Definition first_of_its_url (before : list tagged_resource)
           (r : tagged_resource) : bool :=
  negb (String.eqb (url r) EmptyString)
  && forallb (fun r' => negb (String.eqb (url r') (url r))) before.

(** The resources of [l] that are the first of their url, in order. *)
Fixpoint keep_first (before l : list tagged_resource) : list tagged_resource :=
  match l with
  | [] => []
  | r :: l' =>
      (if first_of_its_url before r then [r] else [])
      ++ keep_first (before ++ [r]) l'
  end.

(** Invariant of the second loop: [seen] holds exactly the non-empty urls
    met so far. *)
Definition seen_so_far (seen : gset string) (before : list tagged_resource)
  : Prop :=
  forall u, u ∈ seen <->
            u <> EmptyString /\ exists r, r ∈ before /\ url r = u.

(** The urls of a result list that are not empty. *)
Definition nonempty_urls (l : list tagged_resource) : list string :=
  List.filter (fun u => negb (String.eqb u EmptyString)) (map url l).

(** *** The fallback extractor, declaratively *)

(** Pass 1: the index keys that occur in the query, in index order. *)
Definition exact_matches (idx : concept_index_t) (query : string)
  : list string :=
  List.filter (fun key => Str.contains key query) (Dict.keys idx).

(** Some word of [key] longer than 3 characters is a whole token of the
    query's word split. *)
Definition shares_word (key query : string) : bool :=
  existsb (fun word => (3 <? String.length word)
                       && Str.mem word (Str.split query))
          (Str.split key).

(** Pass 2: the index keys sharing such a word, in index order. *)
Definition word_matches (idx : concept_index_t) (query : string)
  : list string :=
  List.filter (fun key => shares_word key query) (Dict.keys idx).

(** *** Prerequisites and gaps of one extracted concept *)

(** For a concept bound to a subtopic entry: the subtopics that stand
    before its display name in the list of the entry bound to its parent
    topic; nothing when the display name is not in that list. *)
Definition prerequisites_of (idx : concept_index_t) (concept : string)
  : list string :=
  match Dict.get concept idx with
  | Some o =>
      match info o with
      | Subtopic parent_topic display_name _ =>
          match Dict.get parent_topic idx with
          | Some parent =>
              let subtopics := entry_subtopics (info parent) in
              match Str.index_of display_name subtopics with
              | Some i => take i subtopics
              | None => []
              end
          | None => []
          end
      | Topic _ _ _ => []
      end
  | None => []
  end.

Definition advanced_of (idx : concept_index_t) (concept : string)
  : list string :=
  match Dict.get concept idx with
  | Some o =>
      match info o with
      | Subtopic parent_topic _ _ => advanced_concepts parent_topic
      | Topic _ _ _ => []
      end
  | None => []
  end.

(** The keys one topic entry registers, in order. *)
Definition registered_keys (t : topic_entry) : list string :=
  (topic_writes 0 t).*1.

(** *** The relation resolver, declaratively *)

(** What one input concept contributes: the subtopics listed by its own
    entry when that is a topic entry, by the entry bound to its parent
    topic when it is a subtopic entry, nothing when it is not indexed. *)
Definition family_of (idx : concept_index_t) (concept : string)
  : list string :=
  match Dict.get concept idx with
  | Some o =>
      match info o with
      | Topic _ subtopics _ => subtopics
      | Subtopic parent_topic _ _ =>
          match Dict.get parent_topic idx with
          | Some parent => entry_subtopics (info parent)
          | None => []
          end
      end
  | None => []
  end.

(** The entry bound to a concept is a subtopic entry. *)
Definition is_subtopic_of (idx : concept_index_t) (concept : string) : bool :=
  match Dict.get concept idx with
  | Some o => match info o with Subtopic _ _ _ => true | Topic _ _ _ => false end
  | None => false
  end.

(** The title filter of a subtopic entry's resources. *)
Definition mentions (subtopic : string) (r : resource) : bool :=
  Str.contains (Str.lower subtopic)
               (Str.lower (default EmptyString (r_title r))).

(** The elements of a list in order of first occurrence, leaving out
    those already [seen]. *)
Fixpoint first_seen (seen l : list string) : list string :=
  match l with
  | [] => []
  | k :: l' =>
      if bool_decide (k ∈ seen) then first_seen seen l'
      else k :: first_seen (seen ++ [k]) l'
  end.

(** A text that does not begin with white space. *)
Definition trimmed_left (s : string) : Prop :=
  match s with
  | EmptyString => True
  | String c _ => Str.isspace c = false
  end.

(** [t] is a contiguous piece of [q]. *)
Definition occurs_in (t q : string) : Prop :=
  exists pre post, q = pre +:+ t +:+ post.

(** [s'] is what is left of [s] after some prefix. *)
Definition rest_of (s' s : string) : Prop := exists p, s = p +:+ s'.

(** Every text held by the groups [g] is a piece of [q]. *)
Definition drawn_from (q : string) (g : Re.groups) : Prop :=
  forall i t, g !! i = Some (Some t) -> occurs_in t q.

(** A topic entry with its missing name, subtopics and resources written
    out as the empty string and the empty lists; the display name is left
    as it is. *)
Definition with_defaults (t : topic_entry) : topic_entry :=
  {| t_name := Some (default EmptyString (t_name t));
     t_display_name := t_display_name t;
     t_subtopics := Some (default [] (t_subtopics t));
     t_resources := Some (default [] (t_resources t)) |}.

(** Two analyses that differ at most in the recorded query text. *)
Definition same_findings (a b : analysis) : Prop :=
  query_type a = query_type b /\
  extracted_concepts a = extracted_concepts b /\
  related_concepts a = related_concepts b /\
  resources a = resources b.

(** The five intent tags of the pattern table. *)
Definition intent_tags : list string :=
  ["definition"; "comparison"; "implementation"; "complexity"; "application"].

End Analysis.

(** ** Sample curricula *)

Module Examples.

Definition topic (name display : string) (subs : list string)
           (rs : list resource) : topic_entry :=
  {| t_name := Some name; t_display_name := Some display;
     t_subtopics := Some subs; t_resources := Some rs |}.

Definition link (title url : string) : resource :=
  {| r_title := Some title; r_url := Some url; r_source := Some "geeksforgeeks" |}.

(** A topic [trees] with the subtopic "binary search tree". *)
Definition trees_curriculum : curriculum :=
  {| topics := Some [topic "trees" "Trees" ["binary search tree"] []] |}.

(** The empty document. *)
Definition empty_curriculum : curriculum := {| topics := Some [] |}.

(** A topic entry with none of its fields. *)
Definition bare_topic : topic_entry :=
  {| t_name := None; t_display_name := None;
     t_subtopics := None; t_resources := None |}.

(** A topic [arrays] with its four subtopics in teaching order. *)
Definition arrays_curriculum : curriculum :=
  {| topics := Some [topic "arrays" "Arrays"
                       ["array creation"; "array insertion";
                        "array deletion"; "array traversal"] []] |}.

(** A topic whose resources carry no url: one missing, one empty. *)
Definition unlinked_curriculum : curriculum :=
  {| topics := Some [topic "graphs" "Graphs" []
                       [{| r_title := Some "Graph basics"; r_url := None;
                           r_source := Some "w3schools" |};
                        link "Graph theory" EmptyString]] |}.

(** A topic with the subtopics "quick sort" and "merge sort". *)
Definition sorting_curriculum : curriculum :=
  {| topics := Some [topic "sorting_algorithms" "Sorting Algorithms"
                       ["quick sort"; "merge sort"] []] |}.

(** Two topics: the first has a subtopic whose lower-cased form is the
    topic's space form; the second has no display name. *)
Definition clashing_curriculum : curriculum :=
  {| topics := Some [topic "linked_lists" "LL" ["Linked Lists"]
                       [link "Linked list tutorial" "https://example.org/ll"];
                     {| t_name := Some "hash_tables"; t_display_name := None;
                        t_subtopics := Some ["chaining"];
                        t_resources := None |}] |}.

(** Three topics whose keys are all different. *)
Definition plain_topics : list topic_entry :=
  [topic "arrays" "Arrays" ["array creation"] [];
   topic "linked_lists" "Chained Lists" ["node"]
         [link "Linked list tutorial" "https://example.org/ll"];
   topic "trees" "Trees" ["binary search tree"] []].

(** A topic whose second subtopic lower-cases to the topic's own name. *)
Definition shadowed_curriculum : curriculum :=
  {| topics := Some [topic "arrays" "Arrays" ["array basics"; "Arrays"] []] |}.

(** A topic whose last subtopic lower-cases to the topic's own name. *)
Definition queues_curriculum : curriculum :=
  {| topics := Some [topic "queues" "Queues"
                       ["enqueue"; "dequeue"; "Queues"] []] |}.

(** A topic entry that has a name and nothing else. *)
Definition named_only : topic_entry :=
  {| t_name := Some "x_y"; t_display_name := None;
     t_subtopics := None; t_resources := None |}.

End Examples.

(** * Properties *)

(** ** The matcher *)

Module ReFacts.

Import Re Analysis.

Lemma many1_inv {A} c s (k : string -> option A) x :
  many1 c s k = Some x -> exists s', k s' = Some x.
Proof.
  induction s as [|a s IH]; simpl; [discriminate|].
  destruct (in_class c a); [|discriminate].
  destruct (many1 c s k) eqn:E.
  - intros [= <-]. auto.
  - eauto.
Qed.

Lemma filled_insert g i j t :
  filled g i -> filled (<[j := Some t]> g) i.
Proof.
  unfold filled. intros H.
  destruct (decide (j = i)) as [->|Hne].
  - destruct (g !! i) eqn:E; [|by destruct H].
    rewrite list_lookup_insert_eq; [by eexists|].
    by eapply lookup_lt_Some.
  - by rewrite list_lookup_insert_ne.
Qed.

Lemma filled_insert_eq g i t :
  i < length g -> filled (<[i := Some t]> g) i.
Proof.
  intros H. unfold filled. rewrite list_lookup_insert_eq; [by eexists|done].
Qed.

(** Every successful run ends in its continuation, with the groups that
    the pattern always sets filled and none forgotten. *)
Lemma run_inv r : forall s g k x,
  run r s g k = Some x ->
  exists s' g',
    k s' g' = Some x /\ length g' = length g /\
    (forall i, filled g i -> filled g' i) /\
    (forall i, sets r i = true -> i < length g -> filled g' i).
Proof.
  induction r as [l|c|n r IH|a IHa b IHb|a IHa|a IHa b IHb];
    intros s g k x; simpl.
  - destruct (lit l s) as [s'|]; [|discriminate].
    intros H. exists s', g. repeat split; auto; discriminate.
  - intros H. apply many1_inv in H as [s' H].
    exists s', g. repeat split; auto; discriminate.
  - intros H. apply IH in H as (s' & g' & Hk & Hlen & Hmono & Hset).
    eexists s', _. split; [exact Hk|].
    split; [by rewrite length_insert|].
    split.
    + intros i Hi. apply filled_insert; auto.
    + intros i Hi Hlt. apply orb_true_iff in Hi as [Hi|Hi].
      * apply Nat.eqb_eq in Hi as ->.
        apply filled_insert_eq. lia.
      * apply filled_insert; auto.
  - destruct (run a s g k) eqn:Ea.
    + intros [= <-]. apply IHa in Ea as (s' & g' & ? & ? & ? & Hs).
      exists s', g'. repeat split; auto.
      intros i Hi. apply andb_true_iff in Hi as [Hi _]. auto.
    + intros Eb. apply IHb in Eb as (s' & g' & ? & ? & ? & Hs).
      exists s', g'. repeat split; auto.
      intros i Hi. apply andb_true_iff in Hi as [_ Hi]. auto.
  - destruct (run a s g k) eqn:Ea.
    + intros [= <-]. apply IHa in Ea as (s' & g' & ? & ? & ? & Hs).
      exists s', g'. repeat split; auto; discriminate.
    + intros H. exists s, g. repeat split; auto; discriminate.
  - intros H. apply IHa in H as (s1 & g1 & H & Hl1 & Hm1 & Hs1).
    apply IHb in H as (s2 & g2 & H & Hl2 & Hm2 & Hs2).
    exists s2, g2. split; [exact H|]. split; [congruence|].
    split; [auto|].
    intros i Hi Hlt. apply orb_true_iff in Hi as [Hi|Hi].
    + apply Hm2, Hs1; auto.
    + apply Hs2; auto. congruence.
Qed.

Lemma match_here_inv r s m :
  match_here r s = Some m ->
  length m = ngroups r /\
  forall i, sets r i = true -> i < ngroups r -> filled m i.
Proof.
  unfold match_here. intros H.
  apply run_inv in H as (s' & g' & [= ->] & Hlen & _ & Hset).
  rewrite length_replicate in Hlen, Hset. auto.
Qed.

Lemma search_inv r s m :
  search r s = Some m ->
  length m = ngroups r /\
  forall i, sets r i = true -> i < ngroups r -> filled m i.
Proof.
  induction s as [|a s IH]; simpl.
  - destruct (match_here r EmptyString) eqn:E; [|discriminate].
    intros [= <-]. by apply match_here_inv in E.
  - destruct (match_here r (String a s)) eqn:E; [|exact IH].
    intros [= <-]. by apply match_here_inv in E.
Qed.

Lemma filled_group m n : filled m (pred n) -> exists t, group m n = Some t.
Proof. unfold filled, group. by intros [t ->]; eexists. Qed.

End ReFacts.

(** ** The intent classifier *)

Module ClassifierFacts.

Import Re QueryConceptMapper Analysis ReFacts.

Lemma group_strip_filled m n :
  filled m (pred n) ->
  exists t, group m n = Some t /\ group_strip m n = Ok (Str.strip t).
Proof.
  intros H. apply filled_group in H as [t Ht].
  exists t. unfold group_strip. by rewrite Ht.
Qed.

Lemma first_match_app l1 l2 q :
  first_match (l1 ++ l2) q =
  match first_match l1 q with
  | Some x => Some x
  | None => first_match l2 q
  end.
Proof.
  induction l1 as [|[c p] l1 IH]; simpl; [done|].
  by destruct (search p q).
Qed.

Lemma first_match_split pre c p post q m :
  Forall (fun cp => search cp.2 q = None) pre ->
  search p q = Some m ->
  first_match (pre ++ (c, p) :: post) q = Some (c, m).
Proof.
  intros Hpre Hp. induction Hpre as [|[c' p'] pre Hx _ IH]; simpl.
  - by rewrite Hp.
  - simpl in Hx. by rewrite Hx.
Qed.

Lemma first_match_none l q :
  Forall (fun cp => search cp.2 q = None) l -> first_match l q = None.
Proof.
  induction 1 as [|[c p] l Hx _ IH]; simpl; [done|].
  simpl in Hx. by rewrite Hx.
Qed.

(** What a matching pattern of a clean table makes the loop body return. *)
Lemma body_returns qt p q m :
  returns_cleanly qt p = true ->
  search p q = Some m ->
  exists cs,
    capture_rule qt m cs /\
    forall rest, try_patterns qt (p :: rest) q = Ok (Some (qt, cs)).
Proof.
  unfold returns_cleanly, capture_rule. intros Hc Hs.
  destruct (search_inv _ _ _ Hs) as [Hlen Hset].
  destruct (String.eqb qt "comparison") eqn:Hq.
  - apply andb_true_iff in Hc as [Hc H3].
    apply andb_true_iff in Hc as [H2 Hs1].
    apply Nat.leb_le in H2.
    destruct (group_strip_filled m 2) as (t2 & Hg2 & Hst2);
      [apply Hset; [exact Hs1|lia]|].
    destruct (3 <=? ngroups p) eqn:E3.
    + apply Nat.leb_le in E3.
      destruct (group_strip_filled m 3) as (t3 & Hg3 & Hst3);
        [apply Hset; [exact H3|lia]|].
      exists [Str.strip t2; Str.strip t3]. split.
      * split; [lia|]. exists t2, (Str.strip t3). split; [done|].
        rewrite Hlen. rewrite (proj2 (Nat.leb_le _ _) E3). eauto.
      * intros rest. cbn [try_patterns]. rewrite Hs, Hq, Hlen.
        rewrite (proj2 (Nat.leb_le 2 _) H2), (proj2 (Nat.leb_le 3 _) E3).
        by rewrite Hst2, Hst3.
    + exists [Str.strip t2; EmptyString]. split.
      * split; [lia|]. exists t2, EmptyString. split; [done|].
        by rewrite Hlen, E3.
      * intros rest. cbn [try_patterns]. rewrite Hs, Hq, Hlen.
        rewrite (proj2 (Nat.leb_le 2 _) H2), E3.
        by rewrite Hst2.
  - apply andb_true_iff in Hc as [H1 Hs1].
    apply Nat.leb_le in H1.
    destruct (group_strip_filled m (length m)) as (t & Hg & Hst);
      [rewrite Hlen; apply Hset; [exact Hs1|lia]|].
    exists [Str.strip t]. split.
    + split; [lia|]. eauto.
    + intros rest. cbn [try_patterns]. rewrite Hs, Hq.
      rewrite (proj2 (Nat.leb_le 1 (length m))); [|lia].
      by rewrite Hst.
Qed.

Lemma try_patterns_sound qt ps q :
  forallb (returns_cleanly qt) ps = true ->
  match first_match (map (pair qt) ps) q with
  | Some (c, m) =>
      exists cs, capture_rule c m cs /\ try_patterns qt ps q = Ok (Some (c, cs))
  | None => try_patterns qt ps q = Ok None
  end.
Proof.
  induction ps as [|p ps IH]; cbn [try_patterns first_match map forallb];
    [done|].
  intros H. apply andb_true_iff in H as [Hp Hps].
  destruct (search p q) as [m|] eqn:Hs.
  - destruct (body_returns _ _ _ _ Hp Hs) as (cs & Hr & Hb).
    exists cs. split; [done|]. specialize (Hb ps).
    cbn [try_patterns] in Hb. by rewrite Hs in Hb.
  - by apply IH.
Qed.

Lemma identify_in_sound table q :
  clean table = true ->
  match first_match (declared table) q with
  | Some (c, m) =>
      exists cs, capture_rule c m cs /\ identify_in table q = Ok (c, cs)
  | None => identify_in table q = Ok ("general", [])
  end.
Proof.
  induction table as [|[qt ps] table IH]; simpl; [done|].
  intros H. apply andb_true_iff in H as [Hps Ht].
  rewrite first_match_app.
  pose proof (try_patterns_sound qt ps q Hps) as Hp.
  destruct (first_match (map (pair qt) ps) q) as [[c m]|].
  - destruct Hp as (cs & Hr & ->). exists cs. by split.
  - rewrite Hp. simpl. by apply IH.
Qed.

Lemma query_patterns_clean : clean query_patterns = true.
Proof. vm_compute. reflexivity. Qed.

(** The classifier never raises. *)
Lemma identify_total q :
  exists qt cs, _identify_query_type q = Ok (qt, cs).
Proof.
  pose proof (identify_in_sound _ q query_patterns_clean) as H.
  unfold _identify_query_type.
  destruct (first_match (declared query_patterns) q) as [[c m]|].
  - destruct H as (cs & _ & ->). eauto.
  - rewrite H. eauto.
Qed.

End ClassifierFacts.

(** ** Dictionaries *)

Module DictFacts.

Section Facts.
Context {V : Type}.
Implicit Types (d : Dict.t V) (k : string) (v : V).

Lemma get_set_eq k v d : Dict.get k (Dict.set k v d) = Some v.
Proof.
  induction d as [|[k' v'] d IH]; simpl.
  - by rewrite String.eqb_refl.
  - destruct (String.eqb k' k) eqn:E; simpl; rewrite E; auto.
Qed.

Lemma get_set_ne k k' v d :
  k <> k' -> Dict.get k' (Dict.set k v d) = Dict.get k' d.
Proof.
  intros Hne. induction d as [|[k0 v0] d IH]; simpl.
  - by rewrite (proj2 (String.eqb_neq k k')).
  - destruct (String.eqb k0 k) eqn:E; simpl.
    + apply String.eqb_eq in E as ->.
      by rewrite (proj2 (String.eqb_neq k k')).
    + by rewrite IH.
Qed.

Lemma get_None k d : Dict.get k d = None <-> k ∉ Dict.keys d.
Proof.
  induction d as [|[k0 v0] d IH]; simpl.
  - split; [intros _; apply not_elem_of_nil|done].
  - rewrite not_elem_of_cons. destruct (String.eqb_spec k0 k) as [->|Hne].
    + split; [done|]. by intros [? _].
    + rewrite IH. split; [intros; split; congruence|tauto].
Qed.

Lemma keys_set k v d :
  Dict.keys (Dict.set k v d) =
  if bool_decide (k ∈ Dict.keys d) then Dict.keys d else Dict.keys d ++ [k].
Proof.
  unfold Dict.keys.
  induction d as [|[k0 v0] d IH]; cbn [Dict.set map fst].
  - rewrite bool_decide_eq_false_2; [done|]. apply not_elem_of_nil.
  - destruct (String.eqb_spec k0 k) as [->|Hne]; cbn [map fst].
    + rewrite bool_decide_eq_true_2; [done|]. apply elem_of_cons; auto.
    + rewrite IH. case_bool_decide as H1.
      * rewrite bool_decide_eq_true_2; [done|]. apply elem_of_cons; auto.
      * rewrite bool_decide_eq_false_2; [done|].
        rewrite not_elem_of_cons. split; [congruence|done].
Qed.

Lemma NoDup_keys_set k v d :
  NoDup (Dict.keys d) -> NoDup (Dict.keys (Dict.set k v d)).
Proof.
  intros H. rewrite keys_set. case_bool_decide as Hk; [done|].
  apply NoDup_app. split; [done|]. split; [|apply NoDup_singleton].
  intros x Hx Hx'. apply list_elem_of_singleton in Hx' as ->. done.
Qed.

Lemma elem_of_keys_set k k' v d :
  k' ∈ Dict.keys (Dict.set k v d) <-> k' = k \/ k' ∈ Dict.keys d.
Proof.
  rewrite keys_set. case_bool_decide as Hk.
  - split; [auto|]. by intros [->|?].
  - rewrite elem_of_app, list_elem_of_singleton. tauto.
Qed.

End Facts.

End DictFacts.

(** ** The index builder *)

Module BuilderFacts.

Import QueryConceptMapper Analysis DictFacts.

Lemma replay_app ws1 ws2 d : replay (ws1 ++ ws2) d = replay ws2 (replay ws1 d).
Proof. apply fold_left_app. Qed.

Lemma replay_cons k o ws d : replay ((k, o) :: ws) d = replay ws (Dict.set k o d).
Proof. reflexivity. Qed.

(** A key the log never assigns keeps its binding. *)
Lemma get_replay_untouched ws : forall k d,
  k ∉ ws.*1 -> Dict.get k (replay ws d) = Dict.get k d.
Proof.
  induction ws as [|[k0 o0] ws IH]; intros k d Hk; [done|].
  rewrite fmap_cons, not_elem_of_cons in Hk. destruct Hk as [Hne Hk].
  rewrite replay_cons, IH by done. apply get_set_ne. simpl in Hne. congruence.
Qed.

(** The last assignment to a key is the one that is read back. *)
Lemma get_replay_last ws1 k o ws2 d :
  k ∉ ws2.*1 -> Dict.get k (replay (ws1 ++ (k, o) :: ws2) d) = Some o.
Proof.
  intros Hk. rewrite replay_app, replay_cons, get_replay_untouched by done.
  apply get_set_eq.
Qed.

Lemma NoDup_keys_replay ws : forall d,
  NoDup (Dict.keys d) -> NoDup (Dict.keys (replay ws d)).
Proof.
  induction ws as [|[k o] ws IH]; intros d Hd; [done|].
  rewrite replay_cons. by apply IH, NoDup_keys_set.
Qed.

Lemma elem_of_keys_replay ws : forall k d,
  k ∈ Dict.keys (replay ws d) <-> k ∈ ws.*1 \/ k ∈ Dict.keys d.
Proof.
  induction ws as [|[k0 o0] ws IH]; intros k d.
  - simpl. rewrite elem_of_nil. tauto.
  - rewrite replay_cons, IH, elem_of_keys_set, fmap_cons, elem_of_cons.
    simpl. tauto.
Qed.

(** The inner loop performs the subtopic part of the log. *)
Lemma add_subtopics_log t subs : forall st,
  fold_left (add_subtopic (canonical_name t) (default [] (t_resources t)))
            subs st =
  {| next_oid := next_oid st + length subs;
     partial_index :=
       replay (subtopic_writes (next_oid st) t subs) (partial_index st) |}.
Proof.
  induction subs as [|s subs IH]; intros [n d]; simpl.
  - by rewrite Nat.add_0_r.
  - rewrite IH. simpl. f_equal. lia.
Qed.

(** One round of the outer loop performs the topic's part of the log and
    does not raise. *)
Lemma add_topic_log st t :
  add_topic st t =
  Ok {| next_oid := S (next_oid st) + length (default [] (t_subtopics t));
        partial_index := replay (topic_writes (next_oid st) t)
                                (partial_index st) |}.
Proof.
  destruct st as [n d]. unfold add_topic, topic_writes, name_writes.
  cbn [new_object next_oid partial_index].
  rewrite !replay_app. cbn [replay fold_left fst snd].
  change (default EmptyString (t_name t)) with (canonical_name t).
  change (Str.replace_underscore (canonical_name t)) with (space_name t).
  change (Str.lower (default EmptyString (t_display_name t)))
    with (folded_display_name t).
  change (Build_object n _) with (topic_object n t).
  set (o := topic_object n t).
  unfold store. cbn [next_oid partial_index].
  set (d1 := Dict.set (canonical_name t) o d).
  assert (Halias : forall k d',
             Dict.get (canonical_name t) d' = Some o ->
             alias k (canonical_name t)
                   {| next_oid := S n; partial_index := d' |} =
             Ok {| next_oid := S n; partial_index := Dict.set k o d' |}).
  { intros k d' Hd'. unfold alias, Dict.getitem. simpl. by rewrite Hd'. }
  assert (H1 : Dict.get (canonical_name t) d1 = Some o) by apply get_set_eq.
  destruct (negb (String.eqb (space_name t) (canonical_name t))) eqn:Ealt.
  - rewrite Halias by done. cbn [mbind outcome_bind fold_left fst snd].
    set (d2 := Dict.set (space_name t) o d1).
    assert (H2 : Dict.get (canonical_name t) d2 = Some o).
    { unfold d2. rewrite get_set_ne; [done|].
      apply negb_true_iff, String.eqb_neq in Ealt. done. }
    destruct (negb (String.eqb (folded_display_name t) EmptyString)
              && negb (String.eqb (folded_display_name t) (canonical_name t))
              && negb (String.eqb (folded_display_name t) (space_name t))).
    + rewrite Halias by done. cbn [mbind outcome_bind fold_left fst snd].
      by rewrite add_subtopics_log.
    + cbn [mbind outcome_bind fold_left]. by rewrite add_subtopics_log.
  - cbn [mbind outcome_bind fold_left fst snd].
    destruct (negb (String.eqb (folded_display_name t) EmptyString)
              && negb (String.eqb (folded_display_name t) (canonical_name t))
              && negb (String.eqb (folded_display_name t) (space_name t))).
    + rewrite Halias by done. cbn [mbind outcome_bind fold_left fst snd].
      by rewrite add_subtopics_log.
    + cbn [mbind outcome_bind fold_left]. by rewrite add_subtopics_log.
Qed.

Lemma build_from_log ts : forall st,
  exists n,
    for_each ts st add_topic =
    Ok {| next_oid := n;
          partial_index := replay (writes (next_oid st) ts)
                                  (partial_index st) |}.
Proof.
  induction ts as [|t ts IH]; intros [n d]; cbn [for_each writes].
  - by exists n.
  - rewrite add_topic_log. cbn [mbind outcome_bind].
    edestruct IH as [n' ->]. exists n'.
    cbn [next_oid partial_index]. by rewrite replay_app.
Qed.

Lemma subtopic_writes_keys t subs : forall n,
  (subtopic_writes n t subs).*1 = map Str.lower subs.
Proof.
  induction subs as [|s subs IH]; intros n; [done|].
  cbn [subtopic_writes fmap list_fmap map fst]. f_equal. apply IH.
Qed.

Lemma name_writes_keys n t : (name_writes n t).*1 = (name_writes 0 t).*1.
Proof.
  unfold name_writes.
  destruct (negb (String.eqb (space_name t) (canonical_name t)));
    destruct (negb (String.eqb (folded_display_name t) EmptyString)
              && negb (String.eqb (folded_display_name t) (canonical_name t))
              && negb (String.eqb (folded_display_name t) (space_name t)));
    reflexivity.
Qed.

Lemma topic_writes_keys n t : (topic_writes n t).*1 = registered_keys t.
Proof.
  unfold registered_keys, topic_writes.
  by rewrite !fmap_app, !subtopic_writes_keys, name_writes_keys.
Qed.

Lemma writes_keys ts : forall n,
  (writes n ts).*1 = flat_map registered_keys ts.
Proof.
  induction ts as [|t ts IH]; intros n; [done|].
  cbn [writes flat_map]. by rewrite fmap_app, topic_writes_keys, IH.
Qed.

Lemma writes_app ts1 : forall n ts2,
  exists n', writes n (ts1 ++ ts2) = writes n ts1 ++ writes n' ts2.
Proof.
  induction ts1 as [|t ts1 IH]; intros n ts2; cbn [writes app].
  - by exists n.
  - edestruct IH as [n' ->]. exists n'. by rewrite app_assoc.
Qed.

(** The builder never raises, and the index is the replayed log. *)
Lemma build_log cur :
  _build_concept_index cur =
  Ok (replay (writes 0 (default [] (topics cur))) Dict.empty).
Proof.
  unfold _build_concept_index, build_from.
  by edestruct build_from_log as [n ->].
Qed.

End BuilderFacts.

(** ** The resource resolver *)

Module ResourceFacts.

Import QueryConceptMapper Analysis.

Lemma gather_inner c rs : forall acc,
  fold_left (fun acc r => acc ++ [tag c r]) rs acc = acc ++ map (tag c) rs.
Proof.
  induction rs as [|r rs IH]; intros acc; simpl.
  - by rewrite app_nil_r.
  - by rewrite IH, <- app_assoc.
Qed.

Lemma gather_loop idx cs : forall acc,
  fold_left (gather_step idx) cs acc = acc ++ gathered idx cs.
Proof.
  unfold gathered.
  induction cs as [|c cs IH]; intros acc; simpl.
  - by rewrite app_nil_r.
  - rewrite IH. unfold gather_step.
    destruct (Dict.get c idx) as [o|].
    + by rewrite gather_inner, <- app_assoc.
    + done.
Qed.

Lemma first_of_its_url_seen seen before r :
  seen_so_far seen before ->
  first_of_its_url before r =
  negb (String.eqb (url r) EmptyString) && negb (bool_decide (url r ∈ seen)).
Proof.
  intros Hseen. unfold first_of_its_url.
  destruct (String.eqb_spec (url r) EmptyString) as [He|Hne]; [done|].
  cbn [negb andb]. apply eq_true_iff_eq.
  rewrite forallb_forall, negb_true_iff, bool_decide_eq_false, (Hseen (url r)).
  split.
  - intros H [_ (r' & Hin & Hu)].
    apply list_elem_of_In, H, negb_true_iff, String.eqb_neq in Hin. done.
  - intros H r' Hin. apply negb_true_iff, String.eqb_neq. intros Hu.
    apply H. split; [done|]. exists r'. by rewrite list_elem_of_In.
Qed.

Lemma seen_so_far_step seen before r :
  seen_so_far seen before ->
  seen_so_far
    (if negb (String.eqb (url r) EmptyString)
        && negb (bool_decide (url r ∈ seen))
     then seen ∪ {[url r]} else seen)
    (before ++ [r]).
Proof.
  intros Hseen u.
  assert (Hgoal : (u ∈ seen \/ (url r <> EmptyString /\ u = url r)) <->
                  u <> EmptyString /\
                  exists r', r' ∈ before ++ [r] /\ url r' = u).
  { rewrite (Hseen u). split.
    - intros [[Hu (r' & Hin & Hr')]|[Hu ->]].
      + split; [done|]. exists r'. rewrite elem_of_app. auto.
      + split; [done|]. exists r. rewrite elem_of_app, list_elem_of_singleton.
        auto.
    - intros [Hu (r' & Hin & Hr')].
      apply elem_of_app in Hin as [Hin|Hin].
      + left. eauto.
      + apply list_elem_of_singleton in Hin as ->. right. by subst. }
  rewrite <- Hgoal.
  destruct (String.eqb_spec (url r) EmptyString) as [He|Hne]; cbn [negb andb].
  - split; [auto|]. intros [?|[? _]]; done.
  - case_bool_decide as Hin; cbn [negb].
    + split; [auto|]. intros [?|[_ ->]]; done.
    + rewrite elem_of_union, elem_of_singleton. split.
      * intros [? | ->]; auto.
      * intros [?|[_ ->]]; auto.
Qed.

Lemma unique_loop l : forall before unique seen,
  seen_so_far seen before ->
  (fold_left unique_step l (unique, seen)).1 = unique ++ keep_first before l.
Proof.
  induction l as [|r l IH]; intros before unique seen Hseen.
  - simpl. by rewrite app_nil_r.
  - cbn [fold_left keep_first]. unfold unique_step at 2.
    rewrite (first_of_its_url_seen seen before r Hseen).
    pose proof (seen_so_far_step seen before r Hseen) as Hstep.
    destruct (negb (String.eqb (url r) EmptyString)
              && negb (bool_decide (url r ∈ seen))).
    + rewrite (IH (before ++ [r])) by done. by rewrite <- app_assoc.
    + by rewrite (IH (before ++ [r])) by done.
Qed.

(** The resolver, in closed form. *)
Lemma resources_closed_form idx concepts :
  _get_relevant_resources idx concepts =
  take 10 (keep_first [] (gathered idx concepts)).
Proof.
  unfold _get_relevant_resources.
  rewrite gather_loop. cbn [app].
  rewrite (unique_loop _ [] [] ∅); [done|].
  intros u. split; [set_solver|]. intros [_ (r & Hr & _)].
  by apply elem_of_nil in Hr.
Qed.

Lemma keep_first_urls l : forall before,
  NoDup (map url (keep_first before l)) /\
  Forall (fun r => url r <> EmptyString /\
                   forall r', r' ∈ before -> url r' <> url r)
         (keep_first before l).
Proof.
  induction l as [|r l IH]; intros before; cbn [keep_first].
  - split; constructor.
  - destruct (IH (before ++ [r])) as [Hnd Hall].
    assert (Hall' : Forall (fun r0 => url r0 <> EmptyString /\
                       forall r', r' ∈ before -> url r' <> url r0)
                      (keep_first (before ++ [r]) l)).
    { eapply Forall_impl; [exact Hall|]. intros r0 [? Hr0]. split; [done|].
      intros r' Hr'. apply Hr0. rewrite elem_of_app. auto. }
    destruct (first_of_its_url before r) eqn:E; cbn [app]; [|done].
    split.
    + cbn [map]. constructor; [|done].
      rewrite list_elem_of_fmap. intros (r0 & Hu & Hin).
      rewrite Forall_forall in Hall. destruct (Hall r0 Hin) as [_ Hr0].
      apply (Hr0 r); [|done].
      rewrite elem_of_app, list_elem_of_singleton. auto.
    + constructor; [|done].
      unfold first_of_its_url in E. apply andb_true_iff in E as [E1 E2].
      split.
      * by apply negb_true_iff, String.eqb_neq in E1.
      * intros r' Hr'. rewrite forallb_forall in E2.
        apply list_elem_of_In, E2, negb_true_iff, String.eqb_neq in Hr'. done.
Qed.

Lemma NoDup_nonempty_urls l : NoDup (map url l) -> NoDup (nonempty_urls l).
Proof.
  unfold nonempty_urls. generalize (map url l). intros us.
  induction 1 as [|u us Hu _ IH]; simpl; [constructor|].
  destruct (negb (String.eqb u EmptyString)); [|done].
  constructor; [|done].
  intros Hin. apply Hu. apply list_elem_of_In in Hin.
  apply filter_In in Hin as [Hin _]. by apply list_elem_of_In.
Qed.

Lemma resources_capped idx concepts :
  length (_get_relevant_resources idx concepts) <= 10 /\
  NoDup (nonempty_urls (_get_relevant_resources idx concepts)).
Proof.
  rewrite resources_closed_form. split.
  - rewrite length_take. lia.
  - apply NoDup_nonempty_urls.
    destruct (keep_first_urls (gathered idx concepts) []) as [Hnd _].
    revert Hnd. generalize (keep_first [] (gathered idx concepts)).
    intros l Hnd. rewrite <- (take_drop 10 l), map_app in Hnd.
    by apply NoDup_app in Hnd as [? _].
Qed.

End ResourceFacts.

(** ** The fallback extractor and the relation resolver *)

Module ExtractorFacts.

Import QueryConceptMapper Analysis.

Lemma append_if_loop {A} (f : A -> bool) l : forall acc,
  fold_left (fun acc x => if f x then acc ++ [x] else acc) l acc =
  acc ++ List.filter f l.
Proof.
  induction l as [|x l IH]; intros acc; simpl.
  - by rewrite app_nil_r.
  - rewrite IH. destruct (f x); [by rewrite <- app_assoc|done].
Qed.

Lemma fold_left_pointwise {A B} (f g : A -> B -> A) l :
  (forall a b, f a b = g a b) -> forall a, fold_left f l a = fold_left g l a.
Proof.
  intros Hfg. induction l as [|b l IH]; intros a; simpl; [done|].
  by rewrite Hfg, IH.
Qed.

(** The word loop adds the key once, at its first matching word. *)
Lemma scan_words_spec key q acc : forall words,
  scan_words key words q acc =
  if existsb (fun w => (3 <? String.length w) && Str.mem w (Str.split q))
             words
  then acc ++ [key] else acc.
Proof.
  induction words as [|w words IH]; simpl; [done|].
  by destruct ((3 <? String.length w) && Str.mem w (Str.split q)).
Qed.

Lemma extract_closed_form idx q :
  _extract_concepts_from_query idx q =
  match exact_matches idx q with
  | [] => word_matches idx q
  | found => found
  end.
Proof.
  unfold _extract_concepts_from_query, exact_matches, word_matches.
  rewrite append_if_loop. cbn [app].
  destruct (List.filter _ (Dict.keys idx)) as [|k ks]; [|done].
  rewrite <- (app_nil_l (List.filter _ _)).
  rewrite <- (append_if_loop (fun key => shares_word key q)).
  apply fold_left_pointwise. intros acc key. apply scan_words_spec.
Qed.

Lemma NoDup_list_filter {A} (f : A -> bool) l :
  NoDup l -> NoDup (List.filter f l).
Proof.
  induction 1 as [|x l Hx _ IH]; simpl; [constructor|].
  destruct (f x); [|done]. constructor; [|done].
  intros Hin. apply Hx. apply list_elem_of_In in Hin.
  apply filter_In in Hin as [Hin _]. by apply list_elem_of_In.
Qed.

Lemma extract_NoDup idx q :
  NoDup (Dict.keys idx) -> NoDup (_extract_concepts_from_query idx q).
Proof.
  intros H. rewrite extract_closed_form.
  destruct (exact_matches idx q) eqn:E.
  - by apply NoDup_list_filter.
  - rewrite <- E. by apply NoDup_list_filter.
Qed.

Lemma mem_true x l : Str.mem x l = true <-> x ∈ l.
Proof.
  unfold Str.mem. rewrite existsb_exists. split.
  - intros (y & Hin & Hy). apply String.eqb_eq in Hy as ->.
    by apply list_elem_of_In.
  - intros Hin. exists x. rewrite String.eqb_refl.
    split; [by apply list_elem_of_In|done].
Qed.

Lemma related_capped idx concepts :
  length (_find_related_concepts idx concepts) <= 5 /\
  Forall (fun c => c ∉ concepts) (_find_related_concepts idx concepts).
Proof.
  unfold _find_related_concepts. split.
  - rewrite length_take. lia.
  - apply Forall_take. apply Forall_forall. intros c Hc.
    apply list_elem_of_In, filter_In in Hc as [_ Hc].
    apply negb_true_iff in Hc. intros Hin. apply mem_true in Hin. congruence.
Qed.

End ExtractorFacts.

(** ** [analyze_query] and [identify_knowledge_gaps] *)

Module GapFacts.

Import QueryConceptMapper Analysis ClassifierFacts.

(** [analyze_query] returns, with the classifier's intent. *)
Lemma analyze_query_closed_form idx q :
  exists qt cs,
    _identify_query_type (Str.strip (Str.lower q)) = Ok (qt, cs) /\
    analyze_query idx q =
    let extracted :=
      match cs with
      | [] => _extract_concepts_from_query idx (Str.strip (Str.lower q))
      | _ => cs
      end in
    Ok {| original_query := q;
          query_type := qt;
          extracted_concepts := extracted;
          related_concepts := _find_related_concepts idx extracted;
          resources := _get_relevant_resources idx extracted |}.
Proof.
  destruct (identify_total (Str.strip (Str.lower q))) as (qt & cs & H).
  exists qt, cs. split; [done|]. unfold analyze_query. by rewrite H.
Qed.

Lemma index_of_Some x l : forall i,
  Str.index_of x l = Some i ->
  l !! i = Some x /\ forall j, j < i -> l !! j <> Some x.
Proof.
  induction l as [|y l IH]; intros i; simpl; [discriminate|].
  destruct (String.eqb_spec y x) as [->|Hne].
  - intros [= <-]. split; [done|]. lia.
  - destruct (Str.index_of x l) as [i'|]; [|discriminate].
    intros [= <-]. destruct (IH i' eq_refl) as [Hi Hj]. split; [done|].
    intros [|j] Hlt; simpl; [congruence|]. apply Hj. lia.
Qed.

Lemma append_before_from (subs : list string) n : forall a acc,
  a + n <= length subs ->
  for_each (seq a n) acc
    (fun acc i => match subs !! i with
                  | Some s => Ok (acc ++ [s])
                  | None => Raise IndexError
                  end) =
  Ok (acc ++ take n (drop a subs)).
Proof.
  induction n as [|n IH]; intros a acc Hle; cbn [seq for_each].
  - by rewrite take_0, app_nil_r.
  - destruct (subs !! a) as [s|] eqn:Ha.
    + cbn [mbind outcome_bind]. rewrite IH by lia.
      rewrite <- app_assoc. do 2 f_equal.
      rewrite (drop_S _ _ _ Ha). reflexivity.
    + apply lookup_ge_None in Ha. lia.
Qed.

(** Reading the subtopics before a found position never leaves the list. *)
Lemma append_before_take subs x i acc :
  Str.index_of x subs = Some i ->
  append_before subs i acc = Ok (acc ++ take i subs).
Proof.
  intros H. apply index_of_Some in H as [H _].
  apply lookup_lt_Some in H. unfold append_before.
  rewrite append_before_from by lia. by rewrite drop_0.
Qed.

Lemma gap_step_closed_form idx gaps prereqs c :
  gap_step idx (gaps, prereqs) c =
  Ok (gaps ++ advanced_of idx c, prereqs ++ prerequisites_of idx c).
Proof.
  unfold gap_step, advanced_of, prerequisites_of.
  destruct (Dict.get c idx) as [o|]; [|by rewrite !app_nil_r].
  destruct (info o) as [dn subs rs|parent dn rs]; [by rewrite !app_nil_r|].
  destruct (Dict.get parent idx) as [p|]; [|by rewrite !app_nil_r].
  destruct (Str.index_of dn (entry_subtopics (info p))) as [i|] eqn:E.
  - by rewrite (append_before_take _ _ _ _ E).
  - by rewrite !app_nil_r.
Qed.

Lemma gap_loop idx cs : forall gaps prereqs,
  for_each cs (gaps, prereqs) (gap_step idx) =
  Ok (gaps ++ flat_map (advanced_of idx) cs,
      prereqs ++ flat_map (prerequisites_of idx) cs).
Proof.
  induction cs as [|c cs IH]; intros gaps prereqs; cbn [for_each flat_map].
  - by rewrite !app_nil_r.
  - rewrite gap_step_closed_form. cbn [mbind outcome_bind].
    by rewrite IH, <- !app_assoc.
Qed.

(** [identify_knowledge_gaps] returns whenever the analysis does, with the
    two sets computed from the per-concept candidates. *)
Lemma gaps_closed_form idx q a :
  analyze_query idx q = Ok a ->
  exists r,
    identify_knowledge_gaps idx q = Ok r /\
    query_analysis r = a /\
    prerequisite_concepts r =
      elements (pyset (flat_map (prerequisites_of idx) (extracted_concepts a))
                ∖ pyset (extracted_concepts a)) /\
    knowledge_gaps r =
      elements (pyset (flat_map (advanced_of idx) (extracted_concepts a))
                ∖ pyset (extracted_concepts a)
                ∖ pyset (prerequisite_concepts r)).
Proof.
  intros Ha. unfold identify_knowledge_gaps. rewrite Ha.
  cbn [mbind outcome_bind]. rewrite gap_loop. cbn [app].
  eexists. split; [reflexivity|]. by cbn.
Qed.

End GapFacts.

(** * The properties of the specification *)

Import QueryConceptMapper Analysis Examples.

(** C1.  On the query "what is binary search tree" the mapper does not
    answer with the intent "definition": the pattern
    [what is (a|an)?\s+(.+)] asks for a space after "what is" and then for
    at least one more white space, so without an article it needs two
    spaces.  No other pattern matches, the intent is "general" for every
    index, and for the curriculum with topic [trees] and subtopic
    "binary search tree" the concept is found by the fallback extractor.
    With an article, or with two spaces, the same pattern matches and the
    intent is "definition". *)
Theorem what_is_without_article_is_general :
  (forall idx, exists a,
      analyze_query idx "what is binary search tree" = Ok a /\
      query_type a = "general") /\
  (exists idx a,
      _build_concept_index trees_curriculum = Ok idx /\
      analyze_query idx "what is binary search tree" = Ok a /\
      query_type a = "general" /\
      extracted_concepts a = ["binary search tree"]) /\
  _identify_query_type "what is a binary search tree"
    = Ok ("definition", ["binary search tree"]) /\
  _identify_query_type "what is  binary search tree"
    = Ok ("definition", ["binary search tree"]).
Proof.
  split; [|split; [|split]].
  - intros idx.
    destruct (GapFacts.analyze_query_closed_form idx "what is binary search tree")
      as (qt & cs & Hid & Ha).
    assert (Hc : _identify_query_type
                   (Str.strip (Str.lower "what is binary search tree"))
                 = Ok ("general", [])) by (vm_compute; reflexivity).
    rewrite Hc in Hid. injection Hid as <- <-.
    eexists. split; [exact Ha|reflexivity].
  - eexists _, _. split; [vm_compute; reflexivity|].
    split; [vm_compute; reflexivity|]. split; reflexivity.
  - vm_compute. reflexivity.
  - vm_compute. reflexivity.
Qed.

(** C4.  For every curriculum and every query, the index is built, the
    analysis returns, its related concepts are at most five and none of
    them is an extracted concept, and its resources are at most ten with
    no non-empty url occurring twice. *)
Theorem analysis_caps (cur : curriculum) (q : string) :
  exists idx a,
    _build_concept_index cur = Ok idx /\
    analyze_query idx q = Ok a /\
    length (related_concepts a) <= 5 /\
    Forall (fun c => c ∉ extracted_concepts a) (related_concepts a) /\
    length (resources a) <= 10 /\
    NoDup (nonempty_urls (resources a)).
Proof.
  eexists. 
  destruct (GapFacts.analyze_query_closed_form
              (replay (writes 0 (default [] (topics cur))) Dict.empty) q)
    as (qt & cs & _ & Ha).
  eexists. split; [apply BuilderFacts.build_log|].
  split; [exact Ha|]. cbn [related_concepts extracted_concepts resources].
  split; [apply ExtractorFacts.related_capped|].
  split; [apply ExtractorFacts.related_capped|].
  apply ResourceFacts.resources_capped.
Qed.

(** C5.  For every curriculum and every query, the knowledge-gap analysis
    returns and its prerequisite concepts, its knowledge gaps and the
    extracted concepts of its embedded analysis are pairwise disjoint. *)
Theorem gap_sets_disjoint (cur : curriculum) (q : string) :
  exists idx r,
    _build_concept_index cur = Ok idx /\
    identify_knowledge_gaps idx q = Ok r /\
    Forall (fun c => c ∉ extracted_concepts (query_analysis r))
           (prerequisite_concepts r) /\
    Forall (fun c => c ∉ extracted_concepts (query_analysis r))
           (knowledge_gaps r) /\
    Forall (fun c => c ∉ prerequisite_concepts r) (knowledge_gaps r).
Proof.
  set (idx := replay (writes 0 (default [] (topics cur))) Dict.empty).
  destruct (GapFacts.analyze_query_closed_form idx q) as (qt & cs & _ & Ha).
  destruct (GapFacts.gaps_closed_form idx q _ Ha) as (r & Hr & Hq & Hp & Hg).
  exists idx, r. split; [apply BuilderFacts.build_log|]. split; [exact Hr|].
  rewrite Hq. cbn [extracted_concepts] in *.
  unfold pyset in Hp, Hg.
  repeat split; apply Forall_forall; intros c Hc.
  - rewrite Hp in Hc. apply elem_of_elements in Hc.
    apply elem_of_difference in Hc as [_ Hc].
    by rewrite elem_of_list_to_set in Hc.
  - rewrite Hg in Hc. apply elem_of_elements in Hc.
    apply elem_of_difference in Hc as [Hc _].
    apply elem_of_difference in Hc as [_ Hc].
    by rewrite elem_of_list_to_set in Hc.
  - rewrite Hg in Hc. apply elem_of_elements in Hc.
    apply elem_of_difference in Hc as [_ Hc].
    by rewrite elem_of_list_to_set in Hc.
Qed.

(** C6.  The pattern table lists the five categories in the order
    definition, comparison, implementation, complexity, application.  For
    every query, the first pattern of the table in declaration order
    (categories in order, patterns in order within a category) that is
    found anywhere in the query decides the answer, whatever the later
    patterns do: the intent is its category and the concepts follow the
    capture rule (for [comparison], the stripped second group and the
    stripped third group, or the empty string when the pattern has only
    two groups; otherwise the stripped last group alone).  When no pattern
    is found the answer is [general] with no concept.  The classifier
    never raises. *)
Theorem classifier_first_match_wins :
  Dict.keys query_patterns =
    ["definition"; "comparison"; "implementation"; "complexity";
     "application"] /\
  (forall q pre c p post m,
      declared query_patterns = pre ++ (c, p) :: post ->
      Forall (fun cp => Re.search cp.2 q = None) pre ->
      Re.search p q = Some m ->
      exists cs, capture_rule c m cs /\ _identify_query_type q = Ok (c, cs)) /\
  (forall q,
      Forall (fun cp => Re.search cp.2 q = None) (declared query_patterns) ->
      _identify_query_type q = Ok ("general", [])).
Proof.
  split; [reflexivity|]. split.
  - intros q pre c p post m Hsplit Hpre Hp.
    pose proof (ClassifierFacts.identify_in_sound
                  _ q ClassifierFacts.query_patterns_clean) as H.
    rewrite Hsplit in H.
    by rewrite (ClassifierFacts.first_match_split _ _ _ _ _ _ Hpre Hp) in H.
  - intros q Hnone.
    pose proof (ClassifierFacts.identify_in_sound
                  _ q ClassifierFacts.query_patterns_clean) as H.
    by rewrite (ClassifierFacts.first_match_none _ _ Hnone) in H.
Qed.

(** "stack vs queue": the four definition patterns and the first comparison
    pattern are not found, the second comparison pattern is, with groups
    "stack" and "queue"; it has two groups, so the second concept is
    empty. *)
Lemma classifier_first_match_wins_witness :
  exists cs,
    capture_rule "comparison" [Some "stack"; Some "queue"] cs /\
    _identify_query_type "stack vs queue" = Ok ("comparison", cs).
Proof.
  apply (proj1 (proj2 classifier_first_match_wins)
           "stack vs queue"
           (take 5 (declared query_patterns))
           "comparison"
           (Re.cat [dots 1; ws; Re.Lit "vs"; ws; dots 2])
           (drop 6 (declared query_patterns))).
  - reflexivity.
  - repeat constructor.
  - vm_compute. reflexivity.
Defined.

(** C7.  For every curriculum and query, the fallback extractor returns
    the exact-substring matches when there are any, and only otherwise the
    word-overlap matches: the index keys, each at most once and in index
    order, with some word longer than 3 characters that is a whole token
    of the query's word split.  With a subtopic "quick sort", the token
    "quicksort" matches neither "quick" nor "sort"; the tokens "sort" and
    "quick" match every key with such a word, each key once. *)
Theorem fallback_word_overlap :
  (forall cur q, exists idx,
      _build_concept_index cur = Ok idx /\
      _extract_concepts_from_query idx q =
        match exact_matches idx q with
        | [] => word_matches idx q
        | found => found
        end /\
      NoDup (_extract_concepts_from_query idx q)) /\
  shares_word "quick sort" "explain quicksort algorithm" = false /\
  (exists idx,
      _build_concept_index sorting_curriculum = Ok idx /\
      Dict.keys idx =
        ["sorting_algorithms"; "sorting algorithms"; "quick sort";
         "merge sort"] /\
      _extract_concepts_from_query idx "explain quicksort algorithm" = [] /\
      _extract_concepts_from_query idx "sort quick"
        = ["quick sort"; "merge sort"] /\
      _extract_concepts_from_query idx "merge sort or quick"
        = ["merge sort"]).
Proof.
  split; [|split].
  - intros cur q. eexists. split; [apply BuilderFacts.build_log|].
    split; [apply ExtractorFacts.extract_closed_form|].
    apply ExtractorFacts.extract_NoDup.
    apply BuilderFacts.NoDup_keys_replay. constructor.
  - vm_compute. reflexivity.
  - eexists. split; [vm_compute; reflexivity|].
    repeat split; vm_compute; reflexivity.
Qed.

(** C2 (as stated, refuted).  The two resources of topic [graphs] have no
    url (one missing, one empty); both are gathered for the concept
    "graphs", and neither is returned. *)
Lemma empty_url_resources_dropped :
  exists idx,
    _build_concept_index unlinked_curriculum = Ok idx /\
    gathered idx ["graphs"] =
      [{| title := "Graph basics"; url := EmptyString;
          source := "w3schools"; concept := "graphs" |};
       {| title := "Graph theory"; url := EmptyString;
          source := "geeksforgeeks"; concept := "graphs" |}] /\
    _get_relevant_resources idx ["graphs"] = [].
Proof.
  eexists. split; [vm_compute; reflexivity|].
  split; vm_compute; reflexivity.
Qed.

(** C2 (amended).  For every index and concept list, the resolver gathers
    each indexed concept's stored resources tagged with the concept, keeps
    of them, in encounter order, exactly those that carry a non-empty url
    met for the first time (a resource whose url is empty or missing is
    dropped), and returns the first ten of what is kept. *)
Theorem resources_first_per_url_capped
        (idx : concept_index_t) (concepts : list string) :
  _get_relevant_resources idx concepts =
    take 10 (keep_first [] (gathered idx concepts)) /\
  Forall (fun r => url r <> EmptyString)
         (_get_relevant_resources idx concepts) /\
  length (_get_relevant_resources idx concepts) <= 10.
Proof.
  split; [apply ResourceFacts.resources_closed_form|]. split.
  - rewrite ResourceFacts.resources_closed_form. apply Forall_take.
    destruct (ResourceFacts.keep_first_urls (gathered idx concepts) [])
      as [_ H].
    eapply Forall_impl; [exact H|]. by intros r [? _].
  - apply ResourceFacts.resources_capped.
Qed.

(** C8 (as stated, refuted).  In [clashing_curriculum] both topics have
    pairwise distinct canonical name, space form and lower-cased display
    name.  For the first, the subtopic "Linked Lists" is registered after
    the name forms under the key "linked lists", the topic's space form,
    which then resolves to a subtopic entry: another object, with other
    subtopics and resources than the entry under the canonical name.  For
    the second, the display name is missing, its lower-cased form is
    empty and is not registered at all. *)
Lemma alias_keys_not_always_shared :
  exists idx t1 t2,
    topics clashing_curriculum = Some [t1; t2] /\
    _build_concept_index clashing_curriculum = Ok idx /\
    (canonical_name t1 <> space_name t1 /\
     canonical_name t1 <> folded_display_name t1 /\
     space_name t1 <> folded_display_name t1 /\
     exists o o',
       Dict.get (canonical_name t1) idx = Some o /\
       Dict.get (space_name t1) idx = Some o' /\
       oid o <> oid o' /\
       entry_subtopics (info o) <> entry_subtopics (info o') /\
       entry_resources (info o) <> entry_resources (info o')) /\
    (canonical_name t2 <> space_name t2 /\
     canonical_name t2 <> folded_display_name t2 /\
     space_name t2 <> folded_display_name t2 /\
     Dict.get (folded_display_name t2) idx = None).
Proof.
  eexists _, _, _. split; [reflexivity|].
  split; [vm_compute; reflexivity|]. split.
  - do 3 (split; [vm_compute; discriminate|]).
    eexists _, _. split; [vm_compute; reflexivity|].
    split; [vm_compute; reflexivity|].
    repeat split; vm_compute; discriminate.
  - do 3 (split; [vm_compute; discriminate|]).
    vm_compute. reflexivity.
Qed.

(** C8 (amended).  For every topic entry whose canonical name, space form
    and lower-cased display name are pairwise distinct, whose lower-cased
    display name is not empty, and none of whose three name forms is
    registered again later (as the lower-cased form of one of its own
    subtopics, or as any key of a later topic entry), the three keys
    resolve in the built index to one and the same object, the topic entry
    carrying the topic's subtopics and resources. *)
Theorem alias_keys_share_topic_object
        (pre : list topic_entry) (t : topic_entry) (post : list topic_entry) :
  space_name t <> canonical_name t ->
  folded_display_name t <> EmptyString ->
  folded_display_name t <> canonical_name t ->
  folded_display_name t <> space_name t ->
  Forall (fun k => k ∉ map Str.lower (default [] (t_subtopics t))
                       ++ flat_map registered_keys post)
         [canonical_name t; space_name t; folded_display_name t] ->
  exists idx o,
    _build_concept_index {| topics := Some (pre ++ t :: post) |} = Ok idx /\
    Dict.get (canonical_name t) idx = Some o /\
    Dict.get (space_name t) idx = Some o /\
    Dict.get (folded_display_name t) idx = Some o /\
    info o = Topic (default (canonical_name t) (t_display_name t))
                   (default [] (t_subtopics t))
                   (default [] (t_resources t)).
Proof.
  intros Hsc Hf Hfc Hfs Hlater.
  rewrite BuilderFacts.build_log.
  change (default [] (topics {| topics := Some (pre ++ t :: post) |}))
    with (pre ++ t :: post).
  destruct (BuilderFacts.writes_app pre 0 (t :: post)) as [n ->].
  cbn [writes]. unfold topic_writes at 1, name_writes.
  rewrite (proj2 (String.eqb_neq _ _) Hsc), (proj2 (String.eqb_neq _ _) Hf),
    (proj2 (String.eqb_neq _ _) Hfc), (proj2 (String.eqb_neq _ _) Hfs).
  cbn [negb andb app]. rewrite <- ?app_assoc. cbn [app].
  set (o := topic_object n t).
  set (rest := subtopic_writes (S n) t (default [] (t_subtopics t))
               ++ writes (S n + length (default [] (t_subtopics t))) post).
  assert (Hrest : rest.*1 = map Str.lower (default [] (t_subtopics t))
                            ++ flat_map registered_keys post).
  { unfold rest. by rewrite fmap_app, BuilderFacts.subtopic_writes_keys,
                            BuilderFacts.writes_keys. }
  rewrite <- Hrest in Hlater.
  apply Forall_cons in Hlater as [Hc Hlater].
  apply Forall_cons in Hlater as [Hs Hlater].
  apply Forall_cons in Hlater as [Hd _].
  eexists _, o. split; [reflexivity|]. split; [|split; [|split]].
  - apply BuilderFacts.get_replay_last.
    cbn [fmap list_fmap fst]. rewrite !not_elem_of_cons. auto.
  - replace (writes 0 pre ++ (canonical_name t, o) :: (space_name t, o)
               :: (folded_display_name t, o) :: rest)
      with ((writes 0 pre ++ [(canonical_name t, o)])
            ++ (space_name t, o) :: (folded_display_name t, o) :: rest)
      by (by rewrite <- app_assoc).
    apply BuilderFacts.get_replay_last.
    cbn [fmap list_fmap fst]. rewrite !not_elem_of_cons. auto.
  - replace (writes 0 pre ++ (canonical_name t, o) :: (space_name t, o)
               :: (folded_display_name t, o) :: rest)
      with ((writes 0 pre ++ [(canonical_name t, o); (space_name t, o)])
            ++ (folded_display_name t, o) :: rest)
      by (by rewrite <- app_assoc).
    by apply BuilderFacts.get_replay_last.
  - reflexivity.
Qed.

(** The middle topic of [plain_topics]: "linked_lists", "linked lists" and
    "chained lists" all resolve to the topic object. *)
Lemma alias_keys_share_topic_object_witness :
  exists idx o,
    _build_concept_index {| topics := Some plain_topics |} = Ok idx /\
    Dict.get "linked_lists" idx = Some o /\
    Dict.get "linked lists" idx = Some o /\
    Dict.get "chained lists" idx = Some o /\
    info o = Topic "Chained Lists" ["node"]
                   [link "Linked list tutorial" "https://example.org/ll"].
Proof.
  apply (alias_keys_share_topic_object
           [topic "arrays" "Arrays" ["array creation"] []]
           (topic "linked_lists" "Chained Lists" ["node"]
                  [link "Linked list tutorial" "https://example.org/ll"])
           [topic "trees" "Trees" ["binary search tree"] []]).
  - vm_compute. discriminate.
  - vm_compute. discriminate.
  - vm_compute. discriminate.
  - vm_compute. discriminate.
  - repeat constructor; apply (bool_decide_unpack _); vm_compute; exact I.
Defined.

(** C10.  For every curriculum the index is the result of performing the
    registration log in order on the empty dictionary (each topic's name
    forms, then its subtopics' lower-cased forms, topic after topic), and
    building never raises.  The index holds each registered key once and
    no other key, and a key resolves to the object of its last
    registration in the log: a later registration under a key already
    present replaces the binding, whatever it was. *)
Theorem index_last_writer_wins (cur : curriculum) :
  exists idx,
    _build_concept_index cur = Ok idx /\
    idx = replay (writes 0 (default [] (topics cur))) Dict.empty /\
    NoDup (Dict.keys idx) /\
    (forall k, k ∈ Dict.keys idx <->
               k ∈ (writes 0 (default [] (topics cur))).*1) /\
    (forall before k o after,
        writes 0 (default [] (topics cur)) = before ++ (k, o) :: after ->
        k ∉ after.*1 ->
        Dict.get k idx = Some o).
Proof.
  eexists. split; [apply BuilderFacts.build_log|]. split; [reflexivity|].
  split; [|split].
  - apply BuilderFacts.NoDup_keys_replay. constructor.
  - intros k. rewrite BuilderFacts.elem_of_keys_replay.
    split; [intros [?|H]; [done|by apply elem_of_nil in H]|auto].
  - intros before k o after -> Hk. by apply BuilderFacts.get_replay_last.
Qed.

(** In [shadowed_curriculum] the key "arrays" is registered for the topic
    (object 0) and again for the subtopic "Arrays" (object 2); the index
    keeps the key once, in its first place, bound to the subtopic entry. *)
Lemma index_last_writer_wins_witness :
  exists idx,
    _build_concept_index shadowed_curriculum = Ok idx /\
    Dict.keys idx = ["arrays"; "array basics"] /\
    Dict.get "arrays" idx
      = Some {| oid := 2; info := Subtopic "arrays" "Arrays" [] |}.
Proof.
  destruct (index_last_writer_wins shadowed_curriculum)
    as (idx & Hidx & Heq & _ & _ & Hlast).
  exists idx. split; [exact Hidx|]. split.
  - rewrite Heq. vm_compute. reflexivity.
  - apply (Hlast
             [("arrays",
               {| oid := 0;
                  info := Topic "Arrays" ["array basics"; "Arrays"] [] |});
              ("array basics",
               {| oid := 1;
                  info := Subtopic "arrays" "array basics" [] |})]
             "arrays" _ []).
    + vm_compute. reflexivity.
    + apply not_elem_of_nil.
Defined.

(** * Further properties of the mapper *)

(** ** Cleaning a query *)

Module StrFacts.

Import Analysis.

Lemma lower_char_idem c : Str.lower_char (Str.lower_char c) = Str.lower_char c.
Proof. destruct c as [[] [] [] [] [] [] [] []]; reflexivity. Qed.

Lemma isspace_lower_char c : Str.isspace (Str.lower_char c) = Str.isspace c.
Proof. destruct c as [[] [] [] [] [] [] [] []]; reflexivity. Qed.

Lemma lower_idem s : Str.lower (Str.lower s) = Str.lower s.
Proof.
  induction s as [|c s IH]; simpl; [done|]. by rewrite lower_char_idem, IH.
Qed.

Lemma lstrip_lower s : Str.lstrip (Str.lower s) = Str.lower (Str.lstrip s).
Proof.
  induction s as [|c s IH]; simpl; [done|].
  rewrite isspace_lower_char. by destruct (Str.isspace c).
Qed.

Lemma rstrip_lower s : Str.rstrip (Str.lower s) = Str.lower (Str.rstrip s).
Proof.
  induction s as [|c s IH]; simpl; [done|].
  rewrite IH, isspace_lower_char.
  destruct (Str.rstrip s); simpl; [by destruct (Str.isspace c)|done].
Qed.

Lemma strip_lower s : Str.strip (Str.lower s) = Str.lower (Str.strip s).
Proof. unfold Str.strip. by rewrite lstrip_lower, rstrip_lower. Qed.

Lemma lstrip_trimmed_left s : trimmed_left (Str.lstrip s).
Proof.
  induction s as [|c s IH]; simpl; [done|].
  destruct (Str.isspace c) eqn:E; [done|]. exact E.
Qed.

Lemma lstrip_id s : trimmed_left s -> Str.lstrip s = s.
Proof. destruct s as [|c s]; simpl; [done|]. by intros ->. Qed.

Lemma rstrip_trimmed_left s : trimmed_left s -> trimmed_left (Str.rstrip s).
Proof.
  destruct s as [|c s]; simpl; [done|]. intros Hc.
  destruct (Str.rstrip s); [by rewrite Hc|done].
Qed.

Lemma rstrip_idem s : Str.rstrip (Str.rstrip s) = Str.rstrip s.
Proof.
  induction s as [|c s IH]; simpl; [done|].
  destruct (Str.rstrip s) as [|d t] eqn:E.
  - destruct (Str.isspace c) eqn:Hc; simpl; [done|]. by rewrite Hc.
  - simpl. simpl in IH. by rewrite IH.
Qed.

Lemma strip_idem s : Str.strip (Str.strip s) = Str.strip s.
Proof.
  unfold Str.strip.
  rewrite (lstrip_id (Str.rstrip (Str.lstrip s))).
  - apply rstrip_idem.
  - apply rstrip_trimmed_left, lstrip_trimmed_left.
Qed.

(** [s in s] and [EmptyString in s]. *)
Lemma startswith_refl s : Str.startswith s s = true.
Proof.
  induction s as [|c s IH]; simpl; [done|]. by rewrite Ascii.eqb_refl.
Qed.

Lemma contains_empty s : Str.contains EmptyString s = true.
Proof. by destruct s. Qed.

End StrFacts.

(** ** The classifier and [analyze_query], continued *)

Module AnalysisFacts.

Import Re QueryConceptMapper Analysis ClassifierFacts StrFacts.

Lemma first_match_category l q c m :
  first_match l q = Some (c, m) -> c ∈ l.*1.
Proof.
  induction l as [|[c' p] l IH]; simpl; [discriminate|].
  destruct (search p q).
  - intros [= <- _]. apply elem_of_cons. by left.
  - intros H. apply elem_of_cons. right. by apply IH.
Qed.

Lemma declared_categories :
  forall c, c ∈ (declared query_patterns).*1 -> c ∈ intent_tags.
Proof.
  intros c Hc. vm_compute in Hc. unfold intent_tags.
  repeat (apply elem_of_cons in Hc as [->|Hc];
          [repeat (first [by apply list_elem_of_here|apply list_elem_of_further])|]).
  by apply elem_of_nil in Hc.
Qed.

(** Analyses of two queries with the same cleaned text. *)
Lemma analyze_query_clean idx q1 q2 :
  Str.strip (Str.lower q1) = Str.strip (Str.lower q2) ->
  exists a1 a2,
    analyze_query idx q1 = Ok a1 /\ analyze_query idx q2 = Ok a2 /\
    same_findings a1 a2.
Proof.
  intros Hclean.
  destruct (GapFacts.analyze_query_closed_form idx q1) as (qt1 & cs1 & H1 & A1).
  destruct (GapFacts.analyze_query_closed_form idx q2) as (qt2 & cs2 & H2 & A2).
  rewrite Hclean in H1, A1. rewrite H1 in H2. injection H2 as <- <-.
  eexists _, _. split; [exact A1|]. split; [exact A2|].
  by repeat split.
Qed.

(** The classifier answers [general] with no concept, or one of the five
    tags with one or two concepts. *)
Lemma identify_tagged q :
  exists qt cs,
    _identify_query_type q = Ok (qt, cs) /\
    ((qt = "general" /\ cs = []) \/
     (qt ∈ intent_tags /\ (length cs = 1 \/ length cs = 2))).
Proof.
  pose proof (identify_in_sound _ q query_patterns_clean) as H.
  unfold _identify_query_type.
  destruct (first_match (declared query_patterns) q) as [[c m]|] eqn:E.
  - destruct H as (cs & Hrule & ->). exists c, cs. split; [done|]. right.
    split; [by eapply declared_categories, first_match_category|].
    unfold capture_rule in Hrule. destruct (String.eqb c "comparison").
    + destruct Hrule as (_ & t2 & c2 & _ & _ & ->). by right.
    + destruct Hrule as (_ & t & _ & ->). by left.
  - rewrite H. exists "general", []. split; [done|]. by left.
Qed.

End AnalysisFacts.

(** X1.  For every query the classifier answers in one of three shapes:
    [general] with no concept; [comparison] with exactly two concepts; one
    of the other four intent tags with exactly one concept.  Every concept
    it returns is already stripped of surrounding white space.  So the
    concept list is empty exactly when the intent is [general]. *)
Theorem classifier_answer_shape (q : string) :
  exists qt cs,
    _identify_query_type q = Ok (qt, cs) /\
    ((qt = "general" /\ cs = []) \/
     (qt = "comparison" /\
      exists c1 c2, cs = [c1; c2] /\
                    Str.strip c1 = c1 /\ Str.strip c2 = c2) \/
     (qt ∈ intent_tags /\ qt <> "comparison" /\
      exists c, cs = [c] /\ Str.strip c = c)).
Proof.
  pose proof (ClassifierFacts.identify_in_sound
                _ q ClassifierFacts.query_patterns_clean) as H.
  unfold _identify_query_type.
  destruct (first_match (declared query_patterns) q) as [[c m]|] eqn:E.
  - destruct H as (cs & Hrule & ->). exists c, cs. split; [done|].
    right. unfold capture_rule in Hrule.
    destruct (String.eqb_spec c "comparison") as [->|Hne].
    + left. split; [done|].
      destruct Hrule as (_ & t2 & c2 & _ & H3 & ->).
      exists (Str.strip t2), c2. split; [done|].
      split; [apply StrFacts.strip_idem|].
      destruct (3 <=? length m).
      * destruct H3 as (t3 & _ & ->). apply StrFacts.strip_idem.
      * by subst c2.
    + right. split.
      * apply AnalysisFacts.declared_categories.
        by eapply AnalysisFacts.first_match_category.
      * split; [done|]. destruct Hrule as (_ & t & _ & ->).
        exists (Str.strip t). split; [done|]. apply StrFacts.strip_idem.
  - rewrite H. exists "general", []. split; [done|]. by left.
Qed.

(** X2.  An analysis does not depend on the letter case of the query nor
    on white space around it: the query, its lower-cased form and its
    stripped form are analysed to the same intent, extracted concepts,
    related concepts and resources (only [original_query] differs). *)
Theorem analysis_ignores_case_and_padding
        (idx : concept_index_t) (q : string) :
  exists a a1 a2,
    analyze_query idx q = Ok a /\
    analyze_query idx (Str.lower q) = Ok a1 /\
    analyze_query idx (Str.strip q) = Ok a2 /\
    same_findings a a1 /\ same_findings a a2.
Proof.
  destruct (AnalysisFacts.analyze_query_clean idx q (Str.lower q))
    as (a & a1 & Ha & Ha1 & Hs1); [by rewrite StrFacts.lower_idem|].
  destruct (AnalysisFacts.analyze_query_clean idx q (Str.strip q))
    as (a' & a2 & Ha' & Ha2 & Hs2).
  { by rewrite <- StrFacts.strip_lower, StrFacts.strip_idem. }
  rewrite Ha in Ha'. injection Ha' as <-.
  by exists a, a1, a2.
Qed.

(** ** The index builder, continued *)

Module IndexFacts.

Import QueryConceptMapper Analysis DictFacts BuilderFacts.

Lemma get_is_Some {V} k (d : Dict.t V) : is_Some (Dict.get k d) <-> k ∈ Dict.keys d.
Proof.
  rewrite <- not_eq_None_Some, get_None.
  split; [apply dec_stable|auto].
Qed.

Lemma get_elem_of {V} k (v : V) d : Dict.get k d = Some v -> (k, v) ∈ d.
Proof.
  induction d as [|[k0 v0] d IH]; simpl; [discriminate|].
  destruct (String.eqb_spec k0 k) as [->|Hne].
  - intros [= ->]. apply list_elem_of_here.
  - intros H. apply list_elem_of_further. auto.
Qed.

Lemma get_set_inv {V} k k' (v v' : V) d :
  Dict.get k' (Dict.set k v d) = Some v' ->
  (k' = k /\ v' = v) \/ Dict.get k' d = Some v'.
Proof.
  destruct (decide (k = k')) as [->|Hne].
  - rewrite get_set_eq. intros [= ->]. by left.
  - rewrite get_set_ne by done. by right.
Qed.

(** What is read from a replayed log was written by it, or was there. *)
Lemma get_replay_inv ws : forall k o d,
  Dict.get k (replay ws d) = Some o -> (k, o) ∈ ws \/ Dict.get k d = Some o.
Proof.
  induction ws as [|[k0 o0] ws IH]; intros k o d H; [by right|].
  rewrite replay_cons in H. apply IH in H as [H|H].
  - left. by apply list_elem_of_further.
  - apply get_set_inv in H as [[-> ->]|H]; [left; apply list_elem_of_here|by right].
Qed.

Lemma elem_of_subtopic_writes t subs : forall n k o,
  (k, o) ∈ subtopic_writes n t subs ->
  exists s m, s ∈ subs /\ k = Str.lower s /\ o = subtopic_object m t s.
Proof.
  induction subs as [|s subs IH]; intros n k o H; simpl in H.
  - by apply elem_of_nil in H.
  - apply elem_of_cons in H as [[= -> ->]|H].
    + exists s, n. split; [apply list_elem_of_here|done].
    + apply IH in H as (s' & m & Hs & Hk & Ho).
      exists s', m. split; [by apply list_elem_of_further|done].
Qed.

Lemma elem_of_name_writes n t k o :
  (k, o) ∈ name_writes n t ->
  o = topic_object n t /\
  (k = canonical_name t \/ k = space_name t \/ k = folded_display_name t).
Proof.
  unfold name_writes. intros H.
  apply elem_of_cons in H as [[= -> ->]|H]; [auto|].
  apply elem_of_app in H as [H|H].
  - destruct (negb _); [|by apply elem_of_nil in H].
    apply list_elem_of_singleton in H as [= -> ->]. auto.
  - destruct (_ && _); [|by apply elem_of_nil in H].
    apply list_elem_of_singleton in H as [= -> ->]. auto.
Qed.

Lemma elem_of_writes ts : forall n k o,
  (k, o) ∈ writes n ts ->
  exists t m, t ∈ ts /\ (k, o) ∈ topic_writes m t.
Proof.
  induction ts as [|t ts IH]; intros n k o H; cbn [writes] in H.
  - by apply elem_of_nil in H.
  - apply elem_of_app in H as [H|H].
    + exists t, n. split; [apply list_elem_of_here|done].
    + apply IH in H as (t' & m & Ht & H).
      exists t', m. split; [by apply list_elem_of_further|done].
Qed.

(** The keys a topic registers. *)
Lemma registered_keys_spec t k :
  k ∈ registered_keys t <->
  k = canonical_name t \/ k = space_name t \/
  (k = folded_display_name t /\ k <> EmptyString) \/
  k ∈ map Str.lower (default [] (t_subtopics t)).
Proof.
  unfold registered_keys, topic_writes.
  rewrite fmap_app, subtopic_writes_keys, elem_of_app.
  unfold name_writes.
  destruct (String.eqb_spec (space_name t) (canonical_name t)) as [Hs|Hs];
    destruct (String.eqb_spec (folded_display_name t) EmptyString) as [Hf|Hf];
    destruct (String.eqb_spec (folded_display_name t) (canonical_name t))
      as [Hfc|Hfc];
    destruct (String.eqb_spec (folded_display_name t) (space_name t))
      as [Hfs|Hfs];
    cbn [negb andb app fmap list_fmap fst];
    rewrite ?elem_of_cons, ?elem_of_nil;
    split; intros H; try (intuition congruence).
Qed.

Lemma keys_built ts k :
  k ∈ Dict.keys (replay (writes 0 ts) Dict.empty) <->
  exists t, t ∈ ts /\ k ∈ registered_keys t.
Proof.
  rewrite elem_of_keys_replay, writes_keys.
  rewrite list_elem_of_In, in_flat_map. split.
  - intros [(t & Ht & Hk)|H]; [|by apply elem_of_nil in H].
    exists t. by rewrite !list_elem_of_In.
  - intros (t & Ht & Hk). left. exists t. by rewrite <- !list_elem_of_In.
Qed.

(** Keys iterate in order of first registration. *)
Lemma keys_replay ws : forall d,
  Dict.keys (replay ws d) = Dict.keys d ++ first_seen (Dict.keys d) ws.*1.
Proof.
  induction ws as [|[k o] ws IH]; intros d.
  - simpl. by rewrite app_nil_r.
  - rewrite replay_cons, IH, keys_set. cbn [fmap list_fmap fst first_seen].
    case_bool_decide; [done|]. by rewrite <- app_assoc.
Qed.

(** The fallback extractor returns keys of the index. *)
Lemma extract_resolves idx q :
  Forall (fun c => is_Some (Dict.get c idx))
         (_extract_concepts_from_query idx q).
Proof.
  rewrite ExtractorFacts.extract_closed_form.
  apply Forall_forall. intros c Hc. apply get_is_Some, list_elem_of_In.
  destruct (exact_matches idx q) as [|k ks] eqn:E.
  - unfold word_matches in Hc. by apply list_elem_of_In, filter_In in Hc as [Hc _].
  - rewrite <- E in Hc. unfold exact_matches in Hc.
    by apply list_elem_of_In, filter_In in Hc as [Hc _].
Qed.

End IndexFacts.

(** X3.  Every name form of every topic entry of the curriculum resolves
    in the built index: its canonical name, its space form, its lower-cased
    display name unless that is empty, and the lower-cased form of each of
    its subtopics (to whichever entry was registered last under the key). *)
Theorem index_resolves_every_name_form (cur : curriculum) (t : topic_entry) :
  t ∈ default [] (topics cur) ->
  exists idx,
    _build_concept_index cur = Ok idx /\
    is_Some (Dict.get (canonical_name t) idx) /\
    is_Some (Dict.get (space_name t) idx) /\
    (folded_display_name t = EmptyString \/
     is_Some (Dict.get (folded_display_name t) idx)) /\
    Forall (fun s => is_Some (Dict.get (Str.lower s) idx))
           (default [] (t_subtopics t)).
Proof.
  intros Ht. eexists. split; [apply BuilderFacts.build_log|].
  assert (Hkey : forall k, k ∈ registered_keys t ->
                 is_Some (Dict.get k (replay (writes 0 (default [] (topics cur)))
                                             Dict.empty))).
  { intros k Hk. apply IndexFacts.get_is_Some, IndexFacts.keys_built. eauto. }
  split; [apply Hkey, IndexFacts.registered_keys_spec; auto|].
  split; [apply Hkey, IndexFacts.registered_keys_spec; auto|].
  split.
  - destruct (decide (folded_display_name t = EmptyString)) as [?|Hne];
      [by left|right].
    apply Hkey, IndexFacts.registered_keys_spec. auto.
  - apply Forall_forall. intros s Hs.
    apply Hkey, IndexFacts.registered_keys_spec. do 3 right.
    apply list_elem_of_In, in_map, list_elem_of_In, Hs.
Qed.

(** The first topic of [clashing_curriculum]: "linked_lists",
    "linked lists", "ll" and the subtopic key all resolve. *)
Lemma index_resolves_every_name_form_witness :
  exists idx,
    _build_concept_index clashing_curriculum = Ok idx /\
    is_Some (Dict.get "linked_lists" idx) /\
    is_Some (Dict.get "linked lists" idx) /\
    ("ll" = EmptyString \/ is_Some (Dict.get "ll" idx)) /\
    Forall (fun s => is_Some (Dict.get (Str.lower s) idx)) ["Linked Lists"].
Proof.
  apply (index_resolves_every_name_form
           clashing_curriculum
           (topic "linked_lists" "LL" ["Linked Lists"]
                  [link "Linked list tutorial" "https://example.org/ll"])).
  apply list_elem_of_here.
Defined.

(** X4.  Every entry found in the built index comes from a topic entry of
    the curriculum.  A topic entry found under a key carries that topic's
    display name (its canonical name when missing), subtopics and
    resources, and the key is one of the topic's three name forms.  A
    subtopic entry found under a key names that topic's canonical name as
    parent, shows one of the topic's subtopics, of which the key is the
    lower-cased form, and holds exactly the topic's resources whose title
    mentions the subtopic; its parent topic is itself a key of the index,
    so the lookups of the parent never miss. *)
Theorem index_entries_come_from_curriculum (cur : curriculum) :
  exists idx,
    _build_concept_index cur = Ok idx /\
    forall k o,
      Dict.get k idx = Some o ->
      exists t,
        t ∈ default [] (topics cur) /\
        match info o with
        | Topic d subs rs =>
            d = default (canonical_name t) (t_display_name t) /\
            subs = default [] (t_subtopics t) /\
            rs = default [] (t_resources t) /\
            (k = canonical_name t \/ k = space_name t \/
             k = folded_display_name t)
        | Subtopic p d rs =>
            p = canonical_name t /\
            d ∈ default [] (t_subtopics t) /\
            k = Str.lower d /\
            rs = List.filter (mentions d) (default [] (t_resources t)) /\
            is_Some (Dict.get p idx)
        end.
Proof.
  eexists. split; [apply BuilderFacts.build_log|].
  intros k o Hget.
  apply IndexFacts.get_replay_inv in Hget as [Hin|Hget]; [|discriminate].
  apply IndexFacts.elem_of_writes in Hin as (t & m & Ht & Hin).
  exists t. split; [done|].
  unfold topic_writes in Hin. apply elem_of_app in Hin as [Hin|Hin].
  - apply IndexFacts.elem_of_name_writes in Hin as [-> Hk].
    cbn [topic_object info]. auto.
  - apply IndexFacts.elem_of_subtopic_writes in Hin as (s & j & Hs & -> & ->).
    cbn [subtopic_object info]. repeat split; try done.
    apply IndexFacts.get_is_Some, IndexFacts.keys_built.
    exists t. split; [done|]. apply IndexFacts.registered_keys_spec. auto.
Qed.

(** In [shadowed_curriculum] the key "arrays" holds a subtopic entry; it
    comes from the one topic, whose canonical name is again "arrays". *)
Lemma index_entries_come_from_curriculum_witness :
  exists idx o t,
    _build_concept_index shadowed_curriculum = Ok idx /\
    Dict.get "arrays" idx = Some o /\
    info o = Subtopic "arrays" "Arrays" [] /\
    t ∈ default [] (topics shadowed_curriculum) /\
    canonical_name t = "arrays" /\
    is_Some (Dict.get "arrays" idx).
Proof.
  destruct (index_entries_come_from_curriculum shadowed_curriculum)
    as (idx & Hidx & H).
  assert (Hsame : Ok idx = Ok (replay (writes 0 (default [] (topics
                     shadowed_curriculum))) Dict.empty)).
  { rewrite <- Hidx. apply BuilderFacts.build_log. }
  injection Hsame as ->.
  destruct (H "arrays" {| oid := 2; info := Subtopic "arrays" "Arrays" [] |})
    as (t & Ht & Hentry).
  - vm_compute. reflexivity.
  - cbn [info] in Hentry. destruct Hentry as (Hp & _ & _ & _ & Hsome).
    eexists _, _, t. split; [exact Hidx|].
    split; [vm_compute; reflexivity|]. by repeat split.
Defined.

(** X5.  The keys of the built index iterate in the order in which they
    were first registered: topic after topic, each topic's name forms and
    then its subtopics, a key registered again keeping its first place. *)
Theorem index_keys_in_registration_order (cur : curriculum) :
  exists idx,
    _build_concept_index cur = Ok idx /\
    Dict.keys idx =
      first_seen [] (flat_map registered_keys (default [] (topics cur))).
Proof.
  eexists. split; [apply BuilderFacts.build_log|].
  by rewrite IndexFacts.keys_replay, BuilderFacts.writes_keys.
Qed.

(** X6.  The fallback extractor only returns keys of the index, so each
    concept it returns resolves to an entry; a returned key either occurs
    in the query as a substring, or no key does and it shares a word
    longer than 3 characters with the query. *)
Theorem fallback_concepts_are_index_keys (idx : concept_index_t) (q : string) :
  Forall (fun c =>
            is_Some (Dict.get c idx) /\
            (Str.contains c q = true \/
             (exact_matches idx q = [] /\ shares_word c q = true)))
         (_extract_concepts_from_query idx q).
Proof.
  rewrite ExtractorFacts.extract_closed_form.
  destruct (exact_matches idx q) as [|k ks] eqn:E.
  - apply Forall_forall. intros c Hc. unfold word_matches in Hc.
    apply list_elem_of_In, filter_In in Hc as [Hc Hw].
    split; [by apply IndexFacts.get_is_Some, list_elem_of_In|auto].
  - rewrite <- E. apply Forall_forall. intros c Hc. unfold exact_matches in Hc.
    apply list_elem_of_In, filter_In in Hc as [Hc Hw].
    split; [by apply IndexFacts.get_is_Some, list_elem_of_In|auto].
Qed.

(** X7.  In every analysis the extracted concepts are chosen by the
    intent: for [general] they are the fallback extractor's result on the
    cleaned query, all of them keys of the index; for any other intent they
    are the one or two concept texts of the classifier, taken as they are,
    and the fallback extractor is not consulted. *)
Theorem analysis_concepts_by_intent (idx : concept_index_t) (q : string) :
  exists a,
    analyze_query idx q = Ok a /\
    ((query_type a = "general" /\
      extracted_concepts a =
        _extract_concepts_from_query idx (Str.strip (Str.lower q)) /\
      Forall (fun c => is_Some (Dict.get c idx)) (extracted_concepts a)) \/
     (query_type a ∈ intent_tags /\
      (length (extracted_concepts a) = 1 \/ length (extracted_concepts a) = 2) /\
      _identify_query_type (Str.strip (Str.lower q))
        = Ok (query_type a, extracted_concepts a))).
Proof.
  destruct (AnalysisFacts.identify_tagged (Str.strip (Str.lower q)))
    as (qt & cs & Hid & Hshape).
  unfold analyze_query. rewrite Hid. cbn [mbind outcome_bind].
  eexists. split; [reflexivity|]. cbn [query_type extracted_concepts].
  destruct Hshape as [[-> ->]|[Hq Hlen]].
  - left. split; [done|]. split; [done|]. apply IndexFacts.extract_resolves.
  - right. destruct cs as [|c cs]; [by destruct Hlen|]. by auto.
Qed.

(** X8.  A topic entry whose name is missing or empty is registered under
    the empty key, and the empty text occurs in every query: the fallback
    extractor then returns the empty concept for every query, and its
    word-overlap pass never runs. *)
Theorem nameless_topic_matches_every_query
        (cur : curriculum) (t : topic_entry) (q : string) :
  t ∈ default [] (topics cur) ->
  canonical_name t = EmptyString ->
  exists idx,
    _build_concept_index cur = Ok idx /\
    EmptyString ∈ _extract_concepts_from_query idx q /\
    _extract_concepts_from_query idx q = exact_matches idx q.
Proof.
  intros Ht Hname. eexists. split; [apply BuilderFacts.build_log|].
  set (idx := replay _ _).
  assert (Hin : EmptyString ∈ exact_matches idx q).
  { unfold exact_matches. apply list_elem_of_In, filter_In.
    split; [|apply StrFacts.contains_empty].
    apply list_elem_of_In, IndexFacts.keys_built. exists t. split; [done|].
    apply IndexFacts.registered_keys_spec. by left. }
  rewrite ExtractorFacts.extract_closed_form.
  destruct (exact_matches idx q); [by apply elem_of_nil in Hin|done].
Qed.

(** A curriculum whose only topic entry has no field at all. *)
Lemma nameless_topic_matches_every_query_witness :
  exists idx,
    _build_concept_index {| topics := Some [bare_topic] |} = Ok idx /\
    EmptyString ∈ _extract_concepts_from_query idx "heap sort" /\
    _extract_concepts_from_query idx "heap sort"
      = exact_matches idx "heap sort".
Proof.
  apply (nameless_topic_matches_every_query
           {| topics := Some [bare_topic] |} bare_topic "heap sort").
  - apply list_elem_of_here.
  - reflexivity.
Defined.

(** ** The resolvers, continued *)

Module ResolverFacts.

Import QueryConceptMapper Analysis.

Lemma related_loop idx cs : forall acc,
  fold_left (related_step idx) cs acc = acc ++ flat_map (family_of idx) cs.
Proof.
  induction cs as [|c cs IH]; intros acc; cbn [fold_left flat_map].
  - by rewrite app_nil_r.
  - rewrite IH, app_assoc. f_equal.
    unfold related_step, family_of.
    destruct (Dict.get c idx) as [o|]; [|by rewrite app_nil_r].
    destruct (info o) as [d subs rs|p d rs]; [done|].
    destruct (Dict.get p idx); [done|by rewrite app_nil_r].
Qed.

Lemma related_closed_form idx cs :
  _find_related_concepts idx cs =
  take 5 (List.filter (fun c => negb (Str.mem c cs))
                      (flat_map (family_of idx) cs)).
Proof. unfold _find_related_concepts. by rewrite related_loop. Qed.

Lemma elem_of_flat_map {A B} (f : A -> list B) l y :
  y ∈ flat_map f l <-> exists x, x ∈ l /\ y ∈ f x.
Proof.
  rewrite list_elem_of_In, in_flat_map. split.
  - intros (x & Hx & Hy). exists x. by rewrite !list_elem_of_In.
  - intros (x & Hx & Hy). exists x. by rewrite <- !list_elem_of_In.
Qed.

Lemma flat_map_nil {A B} (f : A -> list B) l :
  Forall (fun x => f x = []) l -> flat_map f l = [].
Proof. induction 1 as [|x l Hx _ IH]; simpl; [done|]. by rewrite Hx, IH. Qed.

Lemma elem_of_gathered idx cs r :
  r ∈ gathered idx cs <->
  exists c o r0,
    c ∈ cs /\ Dict.get c idx = Some o /\
    r0 ∈ entry_resources (info o) /\ r = tag c r0.
Proof.
  unfold gathered. rewrite elem_of_flat_map. split.
  - intros (c & Hc & Hr). destruct (Dict.get c idx) as [o|] eqn:E;
      [|by apply elem_of_nil in Hr].
    apply list_elem_of_fmap in Hr as (r0 & -> & Hr0). by exists c, o, r0.
  - intros (c & o & r0 & Hc & Hget & Hr0 & ->). exists c. split; [done|].
    rewrite Hget. apply list_elem_of_fmap. by exists r0.
Qed.

Lemma keep_first_subset l : forall before r,
  r ∈ keep_first before l -> r ∈ l.
Proof.
  induction l as [|x l IH]; intros before r H; cbn [keep_first] in H.
  - done.
  - apply elem_of_app in H as [H|H].
    + destruct (first_of_its_url before x); [|by apply elem_of_nil in H].
      apply list_elem_of_singleton in H as ->. apply list_elem_of_here.
    + apply list_elem_of_further. eauto.
Qed.

Lemma forallb_false_ex {A} (f : A -> bool) l :
  forallb f l = false -> exists x, x ∈ l /\ f x = false.
Proof.
  induction l as [|x l IH]; simpl; [discriminate|].
  destruct (f x) eqn:E; simpl.
  - intros H. destruct (IH H) as (y & Hy & Hf).
    exists y. split; [by apply list_elem_of_further|done].
  - intros _. exists x. split; [apply list_elem_of_here|done].
Qed.

(** Every url that is not empty survives the removal of duplicates. *)
Lemma keep_first_complete l : forall before r,
  r ∈ l -> url r <> EmptyString ->
  (exists r', r' ∈ before /\ url r' = url r) \/
  url r ∈ map url (keep_first before l).
Proof.
  induction l as [|x l IH]; intros before r Hr Hu.
  - by apply elem_of_nil in Hr.
  - cbn [keep_first]. rewrite map_app, elem_of_app.
    assert (Hx : url x = url r ->
                 (exists r', r' ∈ before /\ url r' = url r) \/
                 url r ∈ map url (if first_of_its_url before x then [x] else [])).
    { intros Hxr. unfold first_of_its_url.
      rewrite Hxr, (proj2 (String.eqb_neq _ _) Hu). cbn [negb andb].
      destruct (forallb _ before) eqn:E.
      - right. cbn [map]. rewrite Hxr. apply list_elem_of_here.
      - left. apply forallb_false_ex in E as (r' & Hin & E).
        exists r'. split; [done|].
        by apply negb_false_iff, String.eqb_eq in E. }
    apply elem_of_cons in Hr as [->|Hr]; [destruct Hx; auto|].
    destruct (IH (before ++ [x]) r Hr Hu) as [(r' & Hin & Hr')|H]; [|auto].
    apply elem_of_app in Hin as [Hin|Hin]; [left; eauto|].
    apply list_elem_of_singleton in Hin as ->. destruct Hx; auto.
Qed.

(** Returned resources were gathered, carry a url, and are tagged with a
    concept of the input. *)
Lemma resources_gathered idx cs r :
  r ∈ _get_relevant_resources idx cs ->
  r ∈ gathered idx cs /\ url r <> EmptyString /\ concept r ∈ cs.
Proof.
  rewrite ResourceFacts.resources_closed_form. intros H.
  apply elem_of_take in H as (i & H & _). apply list_elem_of_lookup_2 in H.
  pose proof (ResourceFacts.keep_first_urls (gathered idx cs) []) as [_ Hall].
  rewrite Forall_forall in Hall. destruct (Hall r H) as [Hu _].
  apply keep_first_subset in H. split; [done|]. split; [done|].
  apply elem_of_gathered in H as (c & o & r0 & Hc & _ & _ & ->). done.
Qed.

(** Concepts that are not indexed contribute nothing. *)
Lemma unindexed_contribute_nothing idx cs :
  Forall (fun c => Dict.get c idx = None) cs ->
  flat_map (family_of idx) cs = [] /\
  gathered idx cs = [] /\
  flat_map (prerequisites_of idx) cs = [] /\
  flat_map (advanced_of idx) cs = [].
Proof.
  intros H. unfold gathered.
  repeat split; apply flat_map_nil; (eapply Forall_impl; [exact H|]);
    intros c Hc; cbn beta;
    unfold family_of, prerequisites_of, advanced_of; by rewrite Hc.
Qed.

(** Concepts that are not bound to a subtopic entry have no prerequisite
    and no advanced concept. *)
Lemma no_subtopic_contributes_nothing idx cs :
  Forall (fun c => is_subtopic_of idx c = false) cs ->
  flat_map (prerequisites_of idx) cs = [] /\
  flat_map (advanced_of idx) cs = [].
Proof.
  intros H.
  split; apply flat_map_nil; (eapply Forall_impl; [exact H|]);
    intros c Hc; cbn beta in *;
    unfold is_subtopic_of, prerequisites_of, advanced_of in *;
    destruct (Dict.get c idx) as [o|]; try done;
    by destruct (info o).
Qed.

Lemma resources_nil idx : _get_relevant_resources idx [] = [].
Proof. reflexivity. Qed.

End ResolverFacts.

(** X9.  The relation resolver returns the first five, in order, of the
    candidates that are not among its input concepts, where each input
    concept contributes, in input order, the subtopics listed by its own
    entry (a topic) or by the entry of its parent topic (a subtopic), and
    nothing when it is not indexed; candidates met twice are kept twice.
    So every related concept is listed by the family of some input. *)
Theorem related_concepts_are_family_members
        (idx : concept_index_t) (concepts : list string) :
  _find_related_concepts idx concepts =
    take 5 (List.filter (fun c => negb (Str.mem c concepts))
                        (flat_map (family_of idx) concepts)) /\
  Forall (fun c => exists x, x ∈ concepts /\ c ∈ family_of idx x)
         (_find_related_concepts idx concepts).
Proof.
  split; [apply ResolverFacts.related_closed_form|].
  rewrite ResolverFacts.related_closed_form.
  apply Forall_take, Forall_forall. intros c Hc.
  apply list_elem_of_In, filter_In in Hc as [Hc _].
  by apply list_elem_of_In, ResolverFacts.elem_of_flat_map in Hc.
Qed.

(** X10.  Concepts that are not keys of the index are skipped silently:
    when none of the input concepts is indexed, both resolvers return the
    empty list. *)
Theorem unindexed_concepts_resolve_to_nothing
        (idx : concept_index_t) (concepts : list string) :
  Forall (fun c => Dict.get c idx = None) concepts ->
  _find_related_concepts idx concepts = [] /\
  _get_relevant_resources idx concepts = [].
Proof.
  intros H.
  destruct (ResolverFacts.unindexed_contribute_nothing idx concepts H)
    as (Hf & Hg & _).
  rewrite ResolverFacts.related_closed_form, Hf.
  rewrite ResourceFacts.resources_closed_form, Hg. done.
Qed.

(** The concept "heap" against an index that only knows "arrays". *)
Lemma unindexed_concepts_resolve_to_nothing_witness :
  _find_related_concepts
    [("arrays", {| oid := 0; info := Topic "Arrays" ["array creation"] [] |})]
    ["heap"] = [] /\
  _get_relevant_resources
    [("arrays", {| oid := 0; info := Topic "Arrays" ["array creation"] [] |})]
    ["heap"] = [].
Proof.
  apply unindexed_concepts_resolve_to_nothing.
  repeat constructor.
Defined.

(** X11.  Every resource returned by the resource resolver carries a
    non-empty url and is the copy of a resource stored in the entry of one
    of the input concepts, tagged with that concept. *)
Theorem resources_come_from_indexed_concepts
        (idx : concept_index_t) (concepts : list string) :
  Forall (fun r =>
            url r <> EmptyString /\
            exists c o r0,
              c ∈ concepts /\ Dict.get c idx = Some o /\
              r0 ∈ entry_resources (info o) /\ r = tag c r0)
         (_get_relevant_resources idx concepts).
Proof.
  apply Forall_forall. intros r Hr.
  apply ResolverFacts.resources_gathered in Hr as (Hg & Hu & _).
  split; [done|]. by apply ResolverFacts.elem_of_gathered.
Qed.

(** X12.  Removing duplicates loses no url: when fewer than ten resources
    are returned, every non-empty url stored for an input concept is the
    url of a returned resource. *)
Theorem no_url_lost_below_cap
        (idx : concept_index_t) (concepts : list string) :
  length (_get_relevant_resources idx concepts) < 10 ->
  Forall (fun r => url r = EmptyString \/
                   url r ∈ map url (_get_relevant_resources idx concepts))
         (gathered idx concepts).
Proof.
  rewrite ResourceFacts.resources_closed_form. intros Hlen.
  rewrite length_take in Hlen.
  rewrite take_ge by lia.
  apply Forall_forall. intros r Hr.
  destruct (decide (url r = EmptyString)) as [?|Hu]; [by left|right].
  destruct (ResolverFacts.keep_first_complete _ [] r Hr Hu)
    as [(r' & Hin & _)|H]; [by apply elem_of_nil in Hin|done].
Qed.

(** Two stored resources with the same url: one is returned, and it
    carries the url of both. *)
Lemma no_url_lost_below_cap_witness :
  Forall (fun r => url r = EmptyString \/
                   url r ∈ map url
                     (_get_relevant_resources
                        [("graphs",
                          {| oid := 0;
                             info := Topic "Graphs" []
                                       [link "BFS" "https://example.org/g";
                                        link "DFS" "https://example.org/g"] |})]
                        ["graphs"]))
         (gathered
            [("graphs",
              {| oid := 0;
                 info := Topic "Graphs" []
                           [link "BFS" "https://example.org/g";
                            link "DFS" "https://example.org/g"] |})]
            ["graphs"]).
Proof.
  apply no_url_lost_below_cap. vm_compute. lia.
Defined.

(** ** [identify_knowledge_gaps], continued *)

Module GapResultFacts.

Import QueryConceptMapper Analysis.

(** The two resource lists are resolved from the two final concept lists. *)
Lemma gap_resources_resolved idx q r :
  identify_knowledge_gaps idx q = Ok r ->
  prerequisite_resources r
    = _get_relevant_resources idx (prerequisite_concepts r) /\
  gap_resources r = _get_relevant_resources idx (knowledge_gaps r).
Proof.
  unfold identify_knowledge_gaps.
  destruct (analyze_query idx q) as [a|e]; [|discriminate].
  cbn [mbind outcome_bind]. rewrite GapFacts.gap_loop.
  cbn [mbind outcome_bind]. by intros [= <-].
Qed.

(** The analysis always returns. *)
Lemma gaps_total idx q : exists r, identify_knowledge_gaps idx q = Ok r.
Proof.
  destruct (GapFacts.analyze_query_closed_form idx q) as (qt & cs & _ & Ha).
  destruct (GapFacts.gaps_closed_form idx q _ Ha) as (r & Hr & _). eauto.
Qed.

Lemma empty_difference (X : gset string) : (∅ : gset string) ∖ X = ∅.
Proof.
  apply set_eq. intros x. rewrite elem_of_difference. split.
  - by intros [H _].
  - intros H. by apply not_elem_of_empty in H.
Qed.

Lemma elements_empty_difference (X : gset string) :
  elements ((∅ : gset string) ∖ X) = [].
Proof. rewrite empty_difference. apply elements_empty. Qed.

(** The embedded analysis is the analysis of the query. *)
Lemma gaps_embed idx q r :
  identify_knowledge_gaps idx q = Ok r ->
  analyze_query idx q = Ok (query_analysis r).
Proof.
  unfold identify_knowledge_gaps.
  destruct (analyze_query idx q) as [a|e]; [|discriminate].
  cbn [mbind outcome_bind]. rewrite GapFacts.gap_loop.
  cbn [mbind outcome_bind]. by intros [= <-].
Qed.

(** Related concepts and resources are resolved from the extracted
    concepts. *)
Lemma analysis_resolved idx q a :
  analyze_query idx q = Ok a ->
  related_concepts a = _find_related_concepts idx (extracted_concepts a) /\
  resources a = _get_relevant_resources idx (extracted_concepts a).
Proof.
  unfold analyze_query.
  destruct (_identify_query_type _) as [[qt cs]|e]; [|discriminate].
  cbn [mbind outcome_bind]. by intros [= <-].
Qed.

(** With no candidate at all, both final concept lists are empty. *)
Lemma no_candidates idx q a r :
  analyze_query idx q = Ok a ->
  identify_knowledge_gaps idx q = Ok r ->
  flat_map (prerequisites_of idx) (extracted_concepts a) = [] ->
  flat_map (advanced_of idx) (extracted_concepts a) = [] ->
  query_analysis r = a /\
  prerequisite_concepts r = [] /\ knowledge_gaps r = [] /\
  prerequisite_resources r = [] /\ gap_resources r = [].
Proof.
  intros Ha Hr Hpre Hadv.
  destruct (GapFacts.gaps_closed_form idx q a Ha) as (r' & Hr' & Hq & Hp & Hg).
  rewrite Hr in Hr'. injection Hr' as <-.
  destruct (gap_resources_resolved idx q r Hr) as [Hpr Hgr].
  rewrite Hpre in Hp. rewrite Hadv in Hg. unfold pyset in Hp, Hg.
  cbn [list_to_set foldr] in Hp, Hg.
  rewrite elements_empty_difference in Hp.
  rewrite !empty_difference, elements_empty in Hg.
  rewrite Hpr, Hgr, Hp, Hg. done.
Qed.

End GapResultFacts.

(** X13.  For every index and query the knowledge-gap analysis returns;
    its prerequisite concepts and its knowledge gaps are lists without
    repetition; and its knowledge gaps are exactly the advanced concepts of
    the parent topic of some extracted concept bound to a subtopic entry
    that are neither extracted nor prerequisite concepts. *)
Theorem knowledge_gaps_are_advanced_concepts
        (idx : concept_index_t) (q : string) :
  exists r,
    identify_knowledge_gaps idx q = Ok r /\
    NoDup (prerequisite_concepts r) /\
    NoDup (knowledge_gaps r) /\
    forall c,
      c ∈ knowledge_gaps r <->
      (c ∉ extracted_concepts (query_analysis r)) /\
      (c ∉ prerequisite_concepts r) /\
      exists x, x ∈ extracted_concepts (query_analysis r) /\
                c ∈ advanced_of idx x.
Proof.
  destruct (GapFacts.analyze_query_closed_form idx q) as (qt & cs & _ & Ha).
  destruct (GapFacts.gaps_closed_form idx q _ Ha) as (r & Hr & Hq & Hp & Hg).
  exists r. split; [done|]. rewrite Hq.
  split; [rewrite Hp; apply NoDup_elements|].
  split; [rewrite Hg; apply NoDup_elements|].
  intros c. rewrite Hg at 1. unfold pyset.
  rewrite elem_of_elements, !elem_of_difference, !elem_of_list_to_set.
  rewrite ResolverFacts.elem_of_flat_map. tauto.
Qed.

(** X14.  Prerequisites and gaps are derived from subtopic entries only:
    when no extracted concept is bound to a subtopic entry (each is a
    topic, or not indexed), the analysis has no prerequisite concept, no
    knowledge gap, and no resource for either. *)
Theorem no_subtopic_no_gaps
        (idx : concept_index_t) (q : string) (a : analysis) :
  analyze_query idx q = Ok a ->
  Forall (fun x => is_subtopic_of idx x = false) (extracted_concepts a) ->
  exists r,
    identify_knowledge_gaps idx q = Ok r /\
    query_analysis r = a /\
    prerequisite_concepts r = [] /\
    knowledge_gaps r = [] /\
    prerequisite_resources r = [] /\
    gap_resources r = [].
Proof.
  intros Ha Hno.
  destruct (GapResultFacts.gaps_total idx q) as [r Hr].
  destruct (ResolverFacts.no_subtopic_contributes_nothing idx _ Hno)
    as [Hpre Hadv].
  exists r. split; [done|].
  exact (GapResultFacts.no_candidates idx q a r Ha Hr Hpre Hadv).
Qed.

(** The query "arrays" is matched to the topic entry alone. *)
Lemma no_subtopic_no_gaps_witness :
  exists r,
    identify_knowledge_gaps
      [("arrays", {| oid := 0; info := Topic "Arrays" ["array creation"] [] |});
       ("array creation",
        {| oid := 1; info := Subtopic "arrays" "array creation" [] |})]
      "arrays" = Ok r /\
    extracted_concepts (query_analysis r) = ["arrays"] /\
    prerequisite_concepts r = [] /\
    knowledge_gaps r = [] /\
    prerequisite_resources r = [] /\
    gap_resources r = [].
Proof.
  edestruct (no_subtopic_no_gaps
               [("arrays",
                 {| oid := 0; info := Topic "Arrays" ["array creation"] [] |});
                ("array creation",
                 {| oid := 1;
                    info := Subtopic "arrays" "array creation" [] |})]
               "arrays")
    as (r & Hr & Hq & H).
  - vm_compute. reflexivity.
  - repeat constructor.
  - exists r. split; [exact Hr|]. rewrite Hq. split; [reflexivity|exact H].
Defined.

(** X15.  The resources returned for the prerequisite concepts and for the
    knowledge gaps obey the same limits as those of the analysis: at most
    ten each, no non-empty url twice in either list, and every resource
    tagged with a concept of its own list. *)
Theorem gap_resources_capped_and_tagged
        (idx : concept_index_t) (q : string) :
  exists r,
    identify_knowledge_gaps idx q = Ok r /\
    length (prerequisite_resources r) <= 10 /\
    NoDup (nonempty_urls (prerequisite_resources r)) /\
    Forall (fun x => concept x ∈ prerequisite_concepts r)
           (prerequisite_resources r) /\
    length (gap_resources r) <= 10 /\
    NoDup (nonempty_urls (gap_resources r)) /\
    Forall (fun x => concept x ∈ knowledge_gaps r) (gap_resources r).
Proof.
  destruct (GapResultFacts.gaps_total idx q) as [r Hr].
  destruct (GapResultFacts.gap_resources_resolved idx q r Hr) as [Hpr Hgr].
  exists r. split; [done|]. rewrite Hpr, Hgr.
  split; [apply ResourceFacts.resources_capped|].
  split; [apply ResourceFacts.resources_capped|].
  split.
  { apply Forall_forall. intros x Hx.
    by apply ResolverFacts.resources_gathered in Hx as (_ & _ & ?). }
  split; [apply ResourceFacts.resources_capped|].
  split; [apply ResourceFacts.resources_capped|].
  apply Forall_forall. intros x Hx.
  by apply ResolverFacts.resources_gathered in Hx as (_ & _ & ?).
Qed.

(** X16.  When the curriculum file cannot be read or decoded (one of the
    two errors that [_load_curriculum] catches), the mapper is built on
    the empty index, and every query is still answered: with no related
    concept, no prerequisite, no knowledge gap and no resource at all. *)
Theorem unreadable_curriculum_gives_empty_answers
        (e : load_error) (q : string) :
  exists self r,
    __init__ (Failed e) = Ok self /\
    self_concept_index self = Dict.empty /\
    identify_knowledge_gaps (self_concept_index self) q = Ok r /\
    related_concepts (query_analysis r) = [] /\
    resources (query_analysis r) = [] /\
    prerequisite_concepts r = [] /\
    knowledge_gaps r = [] /\
    prerequisite_resources r = [] /\
    gap_resources r = [].
Proof.
  destruct (GapResultFacts.gaps_total Dict.empty q) as [r Hr].
  pose proof (GapResultFacts.gaps_embed _ q r Hr) as Ha.
  destruct (GapResultFacts.analysis_resolved _ q _ Ha) as [Hrel Hres].
  assert (Hnone : Forall (fun c => Dict.get c (@Dict.empty object) = None)
                         (extracted_concepts (query_analysis r))).
  { by apply Forall_forall. }
  destruct (ResolverFacts.unindexed_contribute_nothing Dict.empty _ Hnone)
    as (Hfam & Hgat & Hpre & Hadv).
  destruct (GapResultFacts.no_candidates _ q _ r Ha Hr Hpre Hadv)
    as (_ & Hrest).
  exists {| self_curriculum := {| topics := Some [] |};
            self_concept_index := Dict.empty |}, r.
  split; [reflexivity|]. split; [reflexivity|].
  cbn [self_concept_index]. split; [exact Hr|].
  split.
  { by rewrite Hrel, ResolverFacts.related_closed_form, Hfam. }
  split; [|exact Hrest].
  by rewrite Hres, ResourceFacts.resources_closed_form, Hgat.
Qed.

(** ** Answers over a built index *)

Module BuiltFacts.

Import QueryConceptMapper Analysis.

(** What the entries of a built index list was written in the curriculum. *)
Lemma built_entry_content ts k o :
  Dict.get k (replay (writes 0 ts) Dict.empty) = Some o ->
  exists t,
    t ∈ ts /\
    (forall c, c ∈ entry_subtopics (info o) -> c ∈ default [] (t_subtopics t)) /\
    (forall r, r ∈ entry_resources (info o) -> r ∈ default [] (t_resources t)).
Proof.
  intros Hget.
  apply IndexFacts.get_replay_inv in Hget as [Hin|Hget]; [|discriminate].
  apply IndexFacts.elem_of_writes in Hin as (t & m & Ht & Hin).
  exists t. split; [done|].
  unfold topic_writes in Hin. apply elem_of_app in Hin as [Hin|Hin].
  - apply IndexFacts.elem_of_name_writes in Hin as [-> _].
    cbn [topic_object info entry_subtopics entry_resources]. auto.
  - apply IndexFacts.elem_of_subtopic_writes in Hin as (s & j & _ & _ & ->).
    cbn [subtopic_object info entry_subtopics entry_resources].
    split; [intros c Hc; by apply elem_of_nil in Hc|].
    intros r Hr. by apply list_elem_of_In, filter_In in Hr as [Hr _];
                  apply list_elem_of_In.
Qed.

Lemma built_family ts x c :
  c ∈ family_of (replay (writes 0 ts) Dict.empty) x ->
  exists t, t ∈ ts /\ c ∈ default [] (t_subtopics t).
Proof.
  unfold family_of. set (idx := replay _ _).
  destruct (Dict.get x idx) as [o|] eqn:Ex; [|by intros H; apply elem_of_nil in H].
  destruct (info o) as [d subs rs|p d rs] eqn:Eo.
  - intros Hc. destruct (built_entry_content ts x o Ex) as (t & Ht & Hs & _).
    exists t. split; [done|]. apply Hs. by rewrite Eo.
  - destruct (Dict.get p idx) as [po|] eqn:Ep;
      [|by intros H; apply elem_of_nil in H].
    intros Hc. destruct (built_entry_content ts p po Ep) as (t & Ht & Hs & _).
    exists t. split; [done|]. by apply Hs.
Qed.

Lemma built_prerequisites ts x c :
  c ∈ prerequisites_of (replay (writes 0 ts) Dict.empty) x ->
  exists t, t ∈ ts /\ c ∈ default [] (t_subtopics t).
Proof.
  unfold prerequisites_of. set (idx := replay _ _).
  destruct (Dict.get x idx) as [o|] eqn:Ex; [|by intros H; apply elem_of_nil in H].
  destruct (info o) as [d subs rs|p d rs];
    [by intros H; apply elem_of_nil in H|].
  destruct (Dict.get p idx) as [po|] eqn:Ep;
    [|by intros H; apply elem_of_nil in H].
  destruct (Str.index_of d (entry_subtopics (info po))) as [i|];
    [|by intros H; apply elem_of_nil in H].
  intros Hc. apply elem_of_take in Hc as (j & Hc & _).
  apply list_elem_of_lookup_2 in Hc.
  destruct (built_entry_content ts p po Ep) as (t & Ht & Hs & _).
  exists t. split; [done|]. by apply Hs.
Qed.

Lemma built_resources ts cs x :
  x ∈ _get_relevant_resources (replay (writes 0 ts) Dict.empty) cs ->
  exists t r0,
    t ∈ ts /\ r0 ∈ default [] (t_resources t) /\
    title x = default EmptyString (r_title r0) /\
    url x = default EmptyString (r_url r0) /\
    source x = default EmptyString (r_source r0).
Proof.
  intros Hx. apply ResolverFacts.resources_gathered in Hx as (Hg & _ & _).
  apply ResolverFacts.elem_of_gathered in Hg as (c & o & r0 & _ & Hget & Hr0 & ->).
  destruct (built_entry_content ts c o Hget) as (t & Ht & _ & Hr).
  exists t, r0. split; [done|]. split; [by apply Hr|]. done.
Qed.

End BuiltFacts.

(** X17.  Over the index of any curriculum, an answer only names what the
    curriculum holds: every related concept and every prerequisite concept
    is a subtopic string of some topic entry, in its original spelling,
    and every resource of the analysis, of the prerequisites and of the
    gaps shows the title, url and source of a resource of some topic
    entry.  (The knowledge gaps alone come from the fixed table.) *)
Theorem answers_name_curriculum_content (cur : curriculum) (q : string) :
  exists idx r,
    _build_concept_index cur = Ok idx /\
    identify_knowledge_gaps idx q = Ok r /\
    Forall (fun c => exists t, t ∈ default [] (topics cur) /\
                               c ∈ default [] (t_subtopics t))
           (related_concepts (query_analysis r) ++ prerequisite_concepts r) /\
    Forall (fun x => exists t r0,
                t ∈ default [] (topics cur) /\
                r0 ∈ default [] (t_resources t) /\
                title x = default EmptyString (r_title r0) /\
                url x = default EmptyString (r_url r0) /\
                source x = default EmptyString (r_source r0))
           (resources (query_analysis r) ++ prerequisite_resources r
            ++ gap_resources r).
Proof.
  set (ts := default [] (topics cur)).
  set (idx := replay (writes 0 ts) Dict.empty).
  destruct (GapResultFacts.gaps_total idx q) as [r Hr].
  pose proof (GapResultFacts.gaps_embed idx q r Hr) as Ha.
  destruct (GapResultFacts.analysis_resolved idx q _ Ha) as [Hrel Hres].
  destruct (GapFacts.gaps_closed_form idx q _ Ha) as (r' & Hr' & _ & Hp & _).
  rewrite Hr in Hr'. injection Hr' as <-.
  destruct (GapResultFacts.gap_resources_resolved idx q r Hr) as [Hpr Hgr].
  exists idx, r. split; [apply BuilderFacts.build_log|]. split; [done|].
  split.
  - apply Forall_app. split; apply Forall_forall; intros c Hc.
    + rewrite Hrel, ResolverFacts.related_closed_form in Hc.
      apply elem_of_take in Hc as (j & Hc & _).
      apply list_elem_of_lookup_2, list_elem_of_In, filter_In in Hc as [Hc _].
      apply list_elem_of_In, ResolverFacts.elem_of_flat_map in Hc
        as (x & _ & Hc).
      by eapply BuiltFacts.built_family.
    + rewrite Hp in Hc. unfold pyset in Hc.
      apply elem_of_elements, elem_of_difference in Hc as [Hc _].
      apply elem_of_list_to_set, ResolverFacts.elem_of_flat_map in Hc
        as (x & _ & Hc).
      by eapply BuiltFacts.built_prerequisites.
  - rewrite Hres, Hpr, Hgr.
    repeat (apply Forall_app; split); apply Forall_forall; intros x Hx;
      by eapply BuiltFacts.built_resources.
Qed.

(** ** What the matcher captures *)

Module CaptureFacts.

Import Re QueryConceptMapper Analysis.

Lemma append_cons c a b : String c a +:+ b = String c (a +:+ b).
Proof. reflexivity. Qed.

Lemma append_nil_l a : EmptyString +:+ a = a.
Proof. reflexivity. Qed.

Lemma append_nil_r a : a +:+ EmptyString = a.
Proof. induction a as [|c a IH]; [done|]. by rewrite append_cons, IH. Qed.

Lemma append_assoc a b c : (a +:+ b) +:+ c = a +:+ (b +:+ c).
Proof. induction a as [|x a IH]; [done|]. by rewrite !append_cons, IH. Qed.

Lemma length_append a b :
  String.length (a +:+ b) = String.length a + String.length b.
Proof.
  induction a as [|x a IH]; [done|]. rewrite append_cons. simpl. by rewrite IH.
Qed.

Lemma substring_prefix p s : String.substring 0 (String.length p) (p +:+ s) = p.
Proof.
  induction p as [|c p IH]; [by destruct s|].
  rewrite append_cons. simpl. by rewrite IH.
Qed.

Lemma consumed_prefix p s : consumed (p +:+ s) s = p.
Proof.
  unfold consumed. rewrite length_append.
  replace (String.length p + String.length s - String.length s)
    with (String.length p) by lia.
  apply substring_prefix.
Qed.

Lemma rest_of_refl s : rest_of s s.
Proof. by exists EmptyString. Qed.

Lemma rest_of_trans a b c : rest_of a b -> rest_of b c -> rest_of a c.
Proof.
  intros [p ->] [p' ->]. exists (p' +:+ p). by rewrite append_assoc.
Qed.

Lemma rest_of_tail c s : rest_of s (String c s).
Proof. by exists (String c EmptyString). Qed.

Lemma occurs_in_rest t s q : occurs_in t s -> rest_of s q -> occurs_in t q.
Proof.
  intros (pre & post & ->) [p ->]. exists (p +:+ pre), post.
  by rewrite append_assoc.
Qed.

Lemma lit_rest l : forall s s', lit l s = Some s' -> rest_of s' s.
Proof.
  induction l as [|a l IH]; intros s s'; simpl.
  - intros [= ->]. apply rest_of_refl.
  - destruct s as [|b s]; [discriminate|].
    destruct (Ascii.eqb _ _); [|discriminate].
    intros H. eapply rest_of_trans; [by apply IH|apply rest_of_tail].
Qed.

Lemma many1_rest {A} c s (k : string -> option A) x :
  many1 c s k = Some x -> exists s', rest_of s' s /\ k s' = Some x.
Proof.
  induction s as [|a s IH]; simpl; [discriminate|].
  destruct (in_class c a); [|discriminate].
  destruct (many1 c s k) eqn:E.
  - intros [= <-]. destruct (IH eq_refl) as (s' & Hs & Hk).
    exists s'. split; [|done].
    eapply rest_of_trans; [exact Hs|apply rest_of_tail].
  - intros Hk. exists s. split; [apply rest_of_tail|done].
Qed.

Lemma drawn_from_insert q g i t :
  drawn_from q g -> occurs_in t q -> drawn_from q (<[i := Some t]> g).
Proof.
  intros Hg Ht j u Hj.
  destruct (decide (i = j)) as [->|Hne].
  - destruct (decide (j < length g)) as [Hlt|Hge].
    + rewrite list_lookup_insert_eq in Hj by done. by injection Hj as <-.
    + rewrite list_insert_ge in Hj by lia. eauto.
  - rewrite list_lookup_insert_ne in Hj by done. eauto.
Qed.

(** A successful run hands its continuation a rest of the text and groups
    that hold pieces of the query only. *)
Lemma run_drawn q r : forall s g k x,
  run r s g k = Some x ->
  exists s' g',
    k s' g' = Some x /\ rest_of s' s /\
    (rest_of s q -> drawn_from q g -> drawn_from q g').
Proof.
  induction r as [l|c|n r IH|a IHa b IHb|a IHa|a IHa b IHb];
    intros s g k x; simpl.
  - destruct (lit l s) as [s'|] eqn:E; [|discriminate].
    intros H. exists s', g. split; [done|]. split; [exact (lit_rest _ _ _ E)|auto].
  - intros H. apply many1_rest in H as (s' & Hs & H).
    exists s', g. auto.
  - intros H. apply IH in H as (s' & g' & Hk & Hs & Hd).
    eexists s', _. split; [exact Hk|]. split; [done|].
    intros Hq Hg. apply drawn_from_insert; [auto|].
    destruct Hs as [p ->]. rewrite consumed_prefix.
    apply (occurs_in_rest p (p +:+ s')); [|done].
    exists EmptyString, s'. done.
  - destruct (run a s g k) eqn:Ea.
    + intros [= <-]. by apply IHa in Ea.
    + intros Eb. by apply IHb in Eb.
  - destruct (run a s g k) eqn:Ea.
    + intros [= <-]. by apply IHa in Ea.
    + intros H. exists s, g. split; [done|]. split; [apply rest_of_refl|auto].
  - intros H. apply IHa in H as (s1 & g1 & H & Hs1 & Hd1).
    apply IHb in H as (s2 & g2 & H & Hs2 & Hd2).
    exists s2, g2. split; [done|].
    split; [by eapply rest_of_trans|].
    intros Hq Hg. apply Hd2; [by eapply rest_of_trans|auto].
Qed.

Lemma search_drawn r q : forall s m,
  rest_of s q -> search r s = Some m -> drawn_from q m.
Proof.
  assert (Hhere : forall s m, rest_of s q -> match_here r s = Some m ->
                              drawn_from q m).
  { intros s m Hs H. unfold match_here in H.
    apply run_drawn with (q := q) in H as (s' & g' & [= <-] & _ & Hd).
    apply Hd; [done|]. intros i t Hi.
    apply lookup_replicate in Hi as [[=] _]. }
  induction s as [|a s IH]; intros m Hs; simpl.
  - destruct (match_here r EmptyString) eqn:E; [|discriminate].
    intros [= <-]. eauto.
  - destruct (match_here r (String a s)) eqn:E.
    + intros [= <-]. eauto.
    + apply IH. eapply rest_of_trans; [apply rest_of_tail|exact Hs].
Qed.

Lemma lstrip_rest s : rest_of (Str.lstrip s) s.
Proof.
  induction s as [|c s IH]; simpl; [apply rest_of_refl|].
  destruct (Str.isspace c); [|apply rest_of_refl].
  eapply rest_of_trans; [exact IH|apply rest_of_tail].
Qed.

Lemma rstrip_prefix s : exists t, s = Str.rstrip s +:+ t.
Proof.
  induction s as [|c s [t IH]]; simpl; [by exists EmptyString|].
  destruct (Str.rstrip s) as [|d u] eqn:E.
  - destruct (Str.isspace c).
    + by exists (String c s).
    + exists s. done.
  - exists t. rewrite append_cons. by rewrite <- IH.
Qed.

Lemma strip_occurs s : occurs_in (Str.strip s) s.
Proof.
  unfold Str.strip. destruct (lstrip_rest s) as [p Hp].
  destruct (rstrip_prefix (Str.lstrip s)) as [t Ht].
  exists p, t. by rewrite <- Ht.
Qed.

Lemma occurs_in_trans a b c : occurs_in a b -> occurs_in b c -> occurs_in a c.
Proof.
  intros (p1 & q1 & ->) (p2 & q2 & ->).
  exists (p2 +:+ p1), (q1 +:+ q2). by rewrite !append_assoc.
Qed.

Lemma startswith_append t s : Str.startswith t (t +:+ s) = true.
Proof.
  induction t as [|c t IH]; [by destruct s|].
  rewrite append_cons. simpl. by rewrite Ascii.eqb_refl.
Qed.

(** A piece of [q] is found by [in]. *)
Lemma occurs_in_contains t q : occurs_in t q -> Str.contains t q = true.
Proof.
  intros (pre & post & ->).
  induction pre as [|c pre IH].
  - rewrite append_nil_l.
    destruct (t +:+ post) eqn:E; simpl; rewrite <- E;
      by rewrite startswith_append.
  - rewrite append_cons. simpl. rewrite IH. apply orb_true_r.
Qed.

End CaptureFacts.

(** X18.  The classifier never makes up a concept: every concept text it
    returns is a contiguous piece of the query it was given, in the
    query's own letters (the empty second concept of a two-group
    comparison included). *)
Theorem classifier_concepts_occur_in_query (q : string) :
  exists qt cs,
    _identify_query_type q = Ok (qt, cs) /\
    Forall (fun c => Str.contains c q = true) cs.
Proof.
  pose proof (ClassifierFacts.identify_in_sound
                _ q ClassifierFacts.query_patterns_clean) as H.
  unfold _identify_query_type.
  destruct (first_match (declared query_patterns) q) as [[c m]|] eqn:E.
  - destruct H as (cs & Hrule & ->). exists c, cs. split; [done|].
    assert (Hm : drawn_from q m).
    { clear Hrule. revert E. generalize (declared query_patterns).
      induction l as [|[c' p] l IH]; simpl; [discriminate|].
      destruct (Re.search p q) as [m'|] eqn:Es; [|exact IH].
      intros [= _ <-].
      exact (CaptureFacts.search_drawn p q q m'
               (CaptureFacts.rest_of_refl q) Es). }
    assert (Hgroup : forall n t, Re.group m n = Some t ->
                                 Str.contains (Str.strip t) q = true).
    { intros n t Hg. apply CaptureFacts.occurs_in_contains.
      eapply CaptureFacts.occurs_in_trans; [apply CaptureFacts.strip_occurs|].
      unfold Re.group in Hg. apply (Hm (pred n)).
      destruct (m !! pred n) as [[u|]|]; try discriminate.
      by injection Hg as ->. }
    unfold capture_rule in Hrule. destruct (String.eqb c "comparison").
    + destruct Hrule as (_ & t2 & c2 & Hg2 & H3 & ->).
      constructor; [by eapply Hgroup|]. constructor; [|constructor].
      destruct (3 <=? length m).
      * destruct H3 as (t3 & Hg3 & ->). by eapply Hgroup.
      * subst c2. apply StrFacts.contains_empty.
    + destruct Hrule as (_ & t & Hg & ->).
      constructor; [by eapply Hgroup|constructor].
  - rewrite H. exists "general", []. split; [done|constructor].
Qed.

(** X19.  Prerequisites are taken among the related candidates: when the
    analysis returns fewer than five related concepts, every prerequisite
    concept is one of them. *)
Theorem prerequisites_are_related
        (idx : concept_index_t) (q : string) (r : gap_analysis) :
  identify_knowledge_gaps idx q = Ok r ->
  length (related_concepts (query_analysis r)) < 5 ->
  Forall (fun c => c ∈ related_concepts (query_analysis r))
         (prerequisite_concepts r).
Proof.
  intros Hr Hlen.
  pose proof (GapResultFacts.gaps_embed idx q r Hr) as Ha.
  destruct (GapResultFacts.analysis_resolved idx q _ Ha) as [Hrel _].
  destruct (GapFacts.gaps_closed_form idx q _ Ha) as (r' & Hr' & _ & Hp & _).
  rewrite Hr in Hr'. injection Hr' as <-.
  rewrite Hrel, ResolverFacts.related_closed_form in Hlen |- *.
  rewrite length_take in Hlen. rewrite take_ge by lia.
  apply Forall_forall. intros c Hc. rewrite Hp in Hc. unfold pyset in Hc.
  apply elem_of_elements, elem_of_difference in Hc as [Hc Hn].
  rewrite elem_of_list_to_set in Hc, Hn.
  apply ResolverFacts.elem_of_flat_map in Hc as (x & Hx & Hc).
  apply list_elem_of_In, filter_In. split.
  - apply list_elem_of_In, ResolverFacts.elem_of_flat_map.
    exists x. split; [done|].
    unfold prerequisites_of in Hc. unfold family_of.
    destruct (Dict.get x idx) as [o|]; [|by apply elem_of_nil in Hc].
    destruct (info o) as [d subs rs|p d rs]; [by apply elem_of_nil in Hc|].
    destruct (Dict.get p idx) as [po|]; [|by apply elem_of_nil in Hc].
    destruct (Str.index_of d (entry_subtopics (info po)));
      [|by apply elem_of_nil in Hc].
    apply elem_of_take in Hc as (j & Hc & _).
    by apply list_elem_of_lookup_2 in Hc.
  - apply negb_true_iff, not_true_iff_false.
    by rewrite ExtractorFacts.mem_true.
Qed.

(** "array deletion" in a topic of three subtopics: two related concepts,
    one of them the prerequisite. *)
Lemma prerequisites_are_related_witness :
  exists r,
    identify_knowledge_gaps
      [("arrays",
        {| oid := 0;
           info := Topic "Arrays"
                     ["array creation"; "array deletion"; "array traversal"]
                     [] |});
       ("array creation",
        {| oid := 1; info := Subtopic "arrays" "array creation" [] |});
       ("array deletion",
        {| oid := 2; info := Subtopic "arrays" "array deletion" [] |});
       ("array traversal",
        {| oid := 3; info := Subtopic "arrays" "array traversal" [] |})]
      "array deletion" = Ok r /\
    related_concepts (query_analysis r)
      = ["array creation"; "array traversal"] /\
    Forall (fun c => c ∈ related_concepts (query_analysis r))
           (prerequisite_concepts r).
Proof.
  set (idx := [("arrays", _); _; _; _]).
  destruct (GapResultFacts.gaps_total idx "array deletion") as [r Hr].
  pose proof (GapResultFacts.gaps_embed idx _ r Hr) as Ha.
  assert (Hrel : related_concepts (query_analysis r)
                 = ["array creation"; "array traversal"]).
  { remember (query_analysis r) as a eqn:Heqa.
    vm_compute in Ha. injection Ha as <-. reflexivity. }
  exists r. split; [exact Hr|]. split; [exact Hrel|].
  apply (prerequisites_are_related idx "array deletion" r Hr).
  rewrite Hrel. simpl. lia.
Defined.

(** * Missing fields, and prerequisites over a built index *)

(** ** Defaults of the index builder *)

Module DefaultsFacts.

Import QueryConceptMapper Analysis.

Lemma subtopic_writes_with_defaults t subs : forall n,
  subtopic_writes n (with_defaults t) subs = subtopic_writes n t subs.
Proof.
  induction subs as [|s subs IH]; intros n; [done|].
  cbn [subtopic_writes]. by rewrite IH.
Qed.

Lemma topic_writes_with_defaults n t :
  topic_writes n (with_defaults t) = topic_writes n t.
Proof.
  unfold topic_writes. rewrite subtopic_writes_with_defaults. reflexivity.
Qed.

Lemma writes_with_defaults ts : forall n,
  writes n (map with_defaults ts) = writes n ts.
Proof.
  induction ts as [|t ts IH]; intros n; [done|].
  cbn [map writes]. rewrite topic_writes_with_defaults, IH. reflexivity.
Qed.

(** The lower-cased display name is a key only when it is not empty. *)
Lemma elem_of_name_writes_strict n t k o :
  (k, o) ∈ name_writes n t ->
  k = canonical_name t \/ k = space_name t \/
  (k = folded_display_name t /\ folded_display_name t <> EmptyString).
Proof.
  unfold name_writes. intros H.
  apply elem_of_cons in H as [[= -> ->]|H]; [auto|].
  apply elem_of_app in H as [H|H].
  - destruct (negb _); [|by apply elem_of_nil in H].
    apply list_elem_of_singleton in H as [= -> ->]. auto.
  - destruct (String.eqb_spec (folded_display_name t) EmptyString) as [He|Hne];
      [by apply elem_of_nil in H|].
    destruct (_ && _); [|by apply elem_of_nil in H].
    apply list_elem_of_singleton in H as [= -> ->]. auto.
Qed.

End DefaultsFacts.

(** C3 (as stated, refuted).  Against the index of the empty document the
    query "explain stack" is classified "definition" with the concept
    "stack": the classifier does not consult the index, so results are not
    all of intent "general" with an empty concept list.  And a topic entry
    that has the name "x_y" and no display name is indexed with the
    display name "x_y": the missing field is read as the topic's name, not
    as an empty default. *)
Lemma general_intent_and_empty_defaults_refuted :
  (exists idx a,
      _build_concept_index empty_curriculum = Ok idx /\
      analyze_query idx "explain stack" = Ok a /\
      query_type a = "definition" /\
      extracted_concepts a = ["stack"]) /\
  t_display_name named_only = None /\
  _build_concept_index {| topics := Some [named_only] |}
    = Ok [("x_y", {| oid := 0; info := Topic "x_y" [] [] |});
          ("x y", {| oid := 0; info := Topic "x_y" [] [] |})].
Proof.
  split.
  - eexists _, _. split; [vm_compute; reflexivity|].
    split; [vm_compute; reflexivity|]. split; reflexivity.
  - split; [reflexivity|]. vm_compute. reflexivity.
Qed.

(** C3 (amended).  A document without topics, or without the [topics]
    field, builds the empty index without error.  A curriculum some of
    whose fields are missing still builds: it gives the same index as the
    curriculum in which a missing [topics], [subtopics] or [resources] is
    written as the empty list and a missing [name] as the empty string; a
    missing resource [title] counts as the empty string when a subtopic's
    resources are selected; and a missing [display_name] is read as the
    topic's name in the topic entry and registers no key of its own.
    Every query analysed against the empty index returns a result with
    empty related-concept and resource lists, whose intent and extracted
    concepts are exactly what the intent classifier gives for the cleaned
    query (so [general] and no concepts only when no pattern matches). *)
Theorem missing_fields_and_empty_index :
  _build_concept_index {| topics := None |} = Ok Dict.empty /\
  _build_concept_index empty_curriculum = Ok Dict.empty /\
  (forall cur, exists idx,
      _build_concept_index cur = Ok idx /\
      _build_concept_index
        {| topics := Some (map with_defaults (default [] (topics cur))) |}
        = Ok idx /\
      forall k o,
        Dict.get k idx = Some o ->
        exists t,
          t ∈ default [] (topics cur) /\
          match info o with
          | Topic d _ _ =>
              d = default (default EmptyString (t_name t)) (t_display_name t) /\
              (t_display_name t = None ->
               k = canonical_name t \/ k = space_name t)
          | Subtopic _ d rs =>
              rs = List.filter
                     (fun r => Str.contains
                                 (Str.lower d)
                                 (Str.lower (default EmptyString (r_title r))))
                     (default [] (t_resources t))
          end) /\
  (forall q, exists qt cs,
      _identify_query_type (Str.strip (Str.lower q)) = Ok (qt, cs) /\
      analyze_query Dict.empty q =
      Ok {| original_query := q;
            query_type := qt;
            extracted_concepts := cs;
            related_concepts := [];
            resources := [] |}).
Proof.
  split; [reflexivity|]. split; [reflexivity|]. split.
  - intros cur. eexists. split; [apply BuilderFacts.build_log|]. split.
    + rewrite BuilderFacts.build_log. cbn [topics default from_option id].
      by rewrite DefaultsFacts.writes_with_defaults.
    + intros k o Hget.
      apply IndexFacts.get_replay_inv in Hget as [Hin|Hget]; [|discriminate].
      apply IndexFacts.elem_of_writes in Hin as (t & m & Ht & Hin).
      exists t. split; [done|].
      unfold topic_writes in Hin. apply elem_of_app in Hin as [Hin|Hin].
      * pose proof (DefaultsFacts.elem_of_name_writes_strict _ _ _ _ Hin) as Hk.
        apply IndexFacts.elem_of_name_writes in Hin as [-> _].
        cbn [topic_object info]. split; [done|].
        intros Hnone. destruct Hk as [?|[?|[_ Hne]]]; [auto..|].
        exfalso. apply Hne. unfold folded_display_name. by rewrite Hnone.
      * apply IndexFacts.elem_of_subtopic_writes in Hin
          as (s & j & _ & _ & ->).
        reflexivity.
  - intros q.
    destruct (GapFacts.analyze_query_closed_form Dict.empty q)
      as (qt & cs & Hid & Ha).
    exists qt, cs. split; [done|]. rewrite Ha.
    destruct cs as [|c cs]; cbn zeta.
    + reflexivity.
    + do 2 f_equal.
      * unfold _find_related_concepts.
        assert (H : forall l acc,
                   fold_left (related_step Dict.empty) l acc = acc).
        { induction l as [|x l IH]; intros acc; [done|]. simpl. apply IH. }
        by rewrite H.
      * rewrite ResourceFacts.resources_closed_form.
        assert (H : forall l, gathered Dict.empty l = []).
        { induction l as [|x l IH]; [done|]. exact IH. }
        by rewrite H.
Qed.

(** The topic entry with the name "x_y" and nothing else: the entry found
    under "x y" shows the display name "x_y", and the key is the space
    form of the name. *)
Lemma missing_fields_and_empty_index_witness :
  exists idx o t,
    _build_concept_index {| topics := Some [named_only] |} = Ok idx /\
    Dict.get "x y" idx = Some o /\
    info o = Topic "x_y" [] [] /\
    t ∈ [named_only] /\
    "x_y" = default (default EmptyString (t_name t)) (t_display_name t) /\
    (t_display_name t = None ->
     "x y" = canonical_name t \/ "x y" = space_name t).
Proof.
  destruct missing_fields_and_empty_index as (_ & _ & H & _).
  destruct (H {| topics := Some [named_only] |}) as (idx & Hidx & _ & Hget).
  assert (Hsame : Ok idx = Ok [("x_y", {| oid := 0; info := Topic "x_y" [] [] |});
                               ("x y", {| oid := 0; info := Topic "x_y" [] [] |})]).
  { rewrite <- Hidx. vm_compute. reflexivity. }
  injection Hsame as ->.
  destruct (Hget "x y" {| oid := 0; info := Topic "x_y" [] [] |} eq_refl)
    as (t & Ht & Hentry).
  cbn [info] in Hentry. destruct Hentry as [Hd Hk].
  eexists _, _, t. split; [exact Hidx|]. split; [reflexivity|].
  split; [reflexivity|]. by repeat split.
Defined.

(** ** The parent's list, read through the index *)

Module ParentFacts.

Import QueryConceptMapper Analysis.

Lemma subtopic_writes_app t ss1 : forall n ss2,
  subtopic_writes n t (ss1 ++ ss2) =
  subtopic_writes n t ss1 ++ subtopic_writes (n + length ss1) t ss2.
Proof.
  induction ss1 as [|s ss1 IH]; intros n ss2.
  - cbn [app length subtopic_writes]. by rewrite Nat.add_0_r.
  - cbn [app length subtopic_writes]. rewrite IH.
    by replace (S n + length ss1) with (n + S (length ss1)) by lia.
Qed.

Lemma index_of_elem x l : x ∈ l -> exists i, Str.index_of x l = Some i.
Proof.
  induction l as [|y l IH]; intros Hx; [by apply elem_of_nil in Hx|].
  simpl. destruct (String.eqb_spec y x) as [->|Hne]; [by eexists|].
  apply elem_of_cons in Hx as [->|Hx]; [done|].
  destruct (IH Hx) as [i ->]. by eexists.
Qed.

(** The canonical name is registered first, and not again among the
    topic's name forms. *)
Lemma name_writes_head n t :
  exists rest,
    name_writes n t = (canonical_name t, topic_object n t) :: rest /\
    canonical_name t ∉ rest.*1.
Proof.
  unfold name_writes. eexists. split; [reflexivity|].
  destruct (String.eqb_spec (space_name t) (canonical_name t)) as [Hs|Hs];
    destruct (String.eqb_spec (folded_display_name t) EmptyString) as [Hf|Hf];
    destruct (String.eqb_spec (folded_display_name t) (canonical_name t))
      as [Hfc|Hfc];
    destruct (String.eqb_spec (folded_display_name t) (space_name t))
      as [Hfs|Hfs];
    cbn [negb andb app fmap list_fmap fst];
    rewrite ?not_elem_of_cons; repeat split; try congruence;
    apply not_elem_of_nil.
Qed.

(** When neither the subtopic's key nor the parent's canonical name is
    registered again, the prerequisites of the subtopic are read from the
    parent topic's own list. *)
Lemma prerequisites_of_built pre t post ss1 s ss2 :
  default [] (t_subtopics t) = ss1 ++ s :: ss2 ->
  Str.lower s ∉ map Str.lower ss2 ++ flat_map registered_keys post ->
  canonical_name t ∉ map Str.lower (ss1 ++ s :: ss2)
                     ++ flat_map registered_keys post ->
  exists i,
    Str.index_of s (ss1 ++ s :: ss2) = Some i /\
    prerequisites_of (replay (writes 0 (pre ++ t :: post)) Dict.empty)
                     (Str.lower s)
      = take i (ss1 ++ s :: ss2).
Proof.
  intros Hsubs Hs Hc.
  destruct (index_of_elem s (ss1 ++ s :: ss2)) as [i Hi].
  { rewrite elem_of_app, elem_of_cons. auto. }
  exists i. split; [done|].
  destruct (BuilderFacts.writes_app pre 0 (t :: post)) as [n Hw].
  set (idx := replay (writes 0 (pre ++ t :: post)) Dict.empty).
  set (later := writes (S n + length (default [] (t_subtopics t))) post).
  assert (Hlater : later.*1 = flat_map registered_keys post)
    by apply BuilderFacts.writes_keys.
  destruct (name_writes_head n t) as (names & Hnames & Hfresh).
  (* the subtopic's key *)
  assert (Hsub : Dict.get (Str.lower s) idx
                 = Some (subtopic_object (S n + length ss1) t s)).
  { unfold idx. rewrite Hw. cbn [writes]. fold later. unfold topic_writes.
    rewrite Hsubs, subtopic_writes_app. cbn [subtopic_writes].
    replace (writes 0 pre
             ++ (name_writes n t
                 ++ subtopic_writes (S n) t ss1
                 ++ (Str.lower s, subtopic_object (S n + length ss1) t s)
                    :: subtopic_writes (S (S n + length ss1)) t ss2)
             ++ later)
      with ((writes 0 pre ++ name_writes n t ++ subtopic_writes (S n) t ss1)
            ++ (Str.lower s, subtopic_object (S n + length ss1) t s)
               :: (subtopic_writes (S (S n + length ss1)) t ss2 ++ later))
      by (rewrite <- !app_assoc; cbn [app]; reflexivity).
    apply BuilderFacts.get_replay_last.
    rewrite fmap_app, BuilderFacts.subtopic_writes_keys, Hlater. exact Hs. }
  (* the parent's key *)
  assert (Hpar : Dict.get (canonical_name t) idx = Some (topic_object n t)).
  { unfold idx. rewrite Hw. cbn [writes]. fold later. unfold topic_writes.
    rewrite Hnames, Hsubs.
    replace (writes 0 pre
             ++ (((canonical_name t, topic_object n t) :: names)
                 ++ subtopic_writes (S n) t (ss1 ++ s :: ss2))
             ++ later)
      with (writes 0 pre
            ++ (canonical_name t, topic_object n t)
               :: (names ++ subtopic_writes (S n) t (ss1 ++ s :: ss2)
                   ++ later))
      by (rewrite <- !app_assoc; cbn [app]; reflexivity).
    apply BuilderFacts.get_replay_last.
    rewrite !fmap_app, BuilderFacts.subtopic_writes_keys, Hlater.
    rewrite elem_of_app. intros [?|?]; [done|]. by apply Hc. }
  unfold prerequisites_of. rewrite Hsub.
  cbn [subtopic_object info]. fold (canonical_name t). rewrite Hpar.
  cbn [topic_object info entry_subtopics]. by rewrite Hsubs, Hi.
Qed.

(** The prerequisite concepts of an analysis, concept by concept. *)
Lemma gaps_prerequisites idx q a :
  analyze_query idx q = Ok a ->
  exists r,
    identify_knowledge_gaps idx q = Ok r /\
    query_analysis r = a /\
    forall c,
      c ∈ prerequisite_concepts r <->
      (c ∉ extracted_concepts a) /\
      exists x, x ∈ extracted_concepts a /\ c ∈ prerequisites_of idx x.
Proof.
  intros Ha.
  destruct (GapFacts.gaps_closed_form idx q a Ha) as (r & Hr & Hq & Hp & _).
  exists r. split; [done|]. split; [done|]. intros c.
  rewrite Hp. unfold pyset.
  rewrite elem_of_elements, elem_of_difference, !elem_of_list_to_set.
  rewrite ResolverFacts.elem_of_flat_map. tauto.
Qed.

End ParentFacts.

(** C9 (as stated, refuted).  In [queues_curriculum] the subtopic "Queues"
    is registered last under the key "queues", the topic's own name, which
    then resolves to a subtopic entry without a subtopics list.  The query
    "dequeue" is matched to the subtopic entry "dequeue" of parent
    "queues"; "enqueue" stands before "dequeue" in the topic's list, yet
    the analysis has no prerequisite concept. *)
Lemma rebound_parent_hides_prerequisites :
  exists idx r,
    _build_concept_index queues_curriculum = Ok idx /\
    identify_knowledge_gaps idx "dequeue" = Ok r /\
    extracted_concepts (query_analysis r) = ["dequeue"] /\
    Dict.get "dequeue" idx
      = Some {| oid := 2; info := Subtopic "queues" "dequeue" [] |} /\
    Dict.get "queues" idx
      = Some {| oid := 3; info := Subtopic "queues" "Queues" [] |} /\
    Str.index_of "dequeue" ["enqueue"; "dequeue"; "Queues"] = Some 1 /\
    prerequisite_concepts r = [].
Proof.
  eexists _, _. split; [vm_compute; reflexivity|].
  split; [vm_compute; reflexivity|].
  repeat split; vm_compute; reflexivity.
Qed.

(** C9 (amended).  For every index and query the knowledge-gap analysis
    returns, and its prerequisite concepts are exactly the concepts that
    are not extracted and that, for some extracted concept bound to a
    subtopic entry, stand before that entry's display name in the
    subtopics list of the entry that the index binds to its parent topic's
    name (none when the display name is not in that list, as when the key
    has been bound again to a subtopic entry).  In the index built from a
    curriculum, for a subtopic of a topic entry such that neither the
    subtopic's lower-cased form nor the topic's canonical name is
    registered again later, that list is the topic's own ordered
    subtopics list: the prerequisites are the subtopics before the first
    position of the subtopic.  In particular, for a topic [arrays] with
    subtopics "array creation", "array insertion", "array deletion",
    "array traversal" in a curriculum where no later topic registers
    "arrays" or "array deletion", every query whose extracted concepts
    are ["array deletion"] has the prerequisites "array creation" and
    "array insertion" and no other. *)
Theorem prerequisites_read_through_index :
  (forall idx q, exists r,
      identify_knowledge_gaps idx q = Ok r /\
      forall c,
        c ∈ prerequisite_concepts r <->
        (c ∉ extracted_concepts (query_analysis r)) /\
        exists x, x ∈ extracted_concepts (query_analysis r) /\
                  c ∈ prerequisites_of idx x) /\
  (forall pre t post ss1 s ss2,
      default [] (t_subtopics t) = ss1 ++ s :: ss2 ->
      Str.lower s ∉ map Str.lower ss2 ++ flat_map registered_keys post ->
      canonical_name t ∉ map Str.lower (ss1 ++ s :: ss2)
                         ++ flat_map registered_keys post ->
      exists idx i,
        _build_concept_index {| topics := Some (pre ++ t :: post) |} = Ok idx /\
        (ss1 ++ s :: ss2) !! i = Some s /\
        (forall j, j < i -> (ss1 ++ s :: ss2) !! j <> Some s) /\
        prerequisites_of idx (Str.lower s) = take i (ss1 ++ s :: ss2)) /\
  (forall pre display rs post,
      Forall (fun k => k ∉ flat_map registered_keys post)
             ["arrays"; "array deletion"] ->
      exists idx,
        _build_concept_index
          {| topics :=
               Some (pre
                     ++ topic "arrays" display
                          ["array creation"; "array insertion";
                           "array deletion"; "array traversal"] rs
                        :: post) |} = Ok idx /\
        forall q a,
          analyze_query idx q = Ok a ->
          extracted_concepts a = ["array deletion"] ->
          exists r,
            identify_knowledge_gaps idx q = Ok r /\
            query_analysis r = a /\
            ("array traversal" ∉ prerequisite_concepts r) /\
            forall c, c ∈ prerequisite_concepts r <->
                      c = "array creation" \/ c = "array insertion").
Proof.
  split; [|split].
  - intros idx q.
    destruct (GapFacts.analyze_query_closed_form idx q) as (qt & cs & _ & Ha).
    destruct (ParentFacts.gaps_prerequisites idx q _ Ha) as (r & Hr & Hq & Hc).
    exists r. split; [done|]. by rewrite Hq.
  - intros pre t post ss1 s ss2 Hsubs Hs Hc.
    destruct (ParentFacts.prerequisites_of_built pre t post ss1 s ss2
                Hsubs Hs Hc) as (i & Hi & Hpre).
    destruct (GapFacts.index_of_Some _ _ _ Hi) as [Hat Hfirst].
    eexists _, i. split; [apply BuilderFacts.build_log|]. by repeat split.
  - intros pre display rs post Hpost.
    apply Forall_cons in Hpost as [Harrays Hpost].
    apply Forall_cons in Hpost as [Hdeletion _].
    destruct (ParentFacts.prerequisites_of_built
                pre
                (topic "arrays" display
                       ["array creation"; "array insertion";
                        "array deletion"; "array traversal"] rs)
                post ["array creation"; "array insertion"]
                "array deletion" ["array traversal"])
      as (i & Hi & Hpre).
    + reflexivity.
    + rewrite elem_of_app. intros [H|H]; [|by apply Hdeletion].
      revert H. apply (bool_decide_unpack _). vm_compute. exact I.
    + rewrite elem_of_app. intros [H|H]; [|by apply Harrays].
      revert H. apply (bool_decide_unpack _). vm_compute. exact I.
    + vm_compute in Hi. injection Hi as <-.
      change (Str.lower "array deletion") with "array deletion" in Hpre.
      change (take 2 (["array creation"; "array insertion"]
                      ++ ["array deletion"; "array traversal"]))
        with ["array creation"; "array insertion"] in Hpre.
      match type of Hpre with prerequisites_of ?d _ = _ => exists d end.
      split; [apply BuilderFacts.build_log|].
      intros q a Ha Hex.
      destruct (ParentFacts.gaps_prerequisites _ q a Ha) as (r & Hr & Hq & Hc).
      exists r. split; [done|]. split; [done|].
      assert (Hiff : forall c, c ∈ prerequisite_concepts r <->
                               c = "array creation" \/ c = "array insertion").
      { intros c. rewrite Hc, Hex. split.
        - intros [_ (x & Hx & Hin)].
          apply list_elem_of_singleton in Hx as ->. rewrite Hpre in Hin.
          apply elem_of_cons in Hin as [->|Hin]; [by left|].
          apply list_elem_of_singleton in Hin as ->. by right.
        - intros Hcc. split.
          + rewrite list_elem_of_singleton. by destruct Hcc as [->| ->].
          + exists "array deletion". split; [by apply list_elem_of_singleton|].
            rewrite Hpre.
            destruct Hcc as [->| ->];
              [apply list_elem_of_here
              |apply list_elem_of_further, list_elem_of_here]. }
      split; [|done].
      rewrite Hiff. by intros [?|?].
Qed.

(** The curriculum with the one topic [arrays]: "explain array deletion"
    is analysed with the one extracted concept "array deletion". *)
Lemma prerequisites_read_through_index_witness :
  exists idx r,
    _build_concept_index arrays_curriculum = Ok idx /\
    identify_knowledge_gaps idx "explain array deletion" = Ok r /\
    extracted_concepts (query_analysis r) = ["array deletion"] /\
    ("array traversal" ∉ prerequisite_concepts r) /\
    forall c, c ∈ prerequisite_concepts r <->
              c = "array creation" \/ c = "array insertion".
Proof.
  destruct (proj2 (proj2 prerequisites_read_through_index) [] "Arrays" [] [])
    as (idx & Hidx & H).
  { repeat constructor; apply not_elem_of_nil. }
  change (_build_concept_index arrays_curriculum = Ok idx) in Hidx.
  exists idx.
  assert (Hsame : Ok idx = Ok (replay (writes 0 (default [] (topics
                     arrays_curriculum))) Dict.empty)).
  { rewrite <- Hidx. apply BuilderFacts.build_log. }
  injection Hsame as ->.
  edestruct (H "explain array deletion") as (r & Hr & Hq & Hnot & Hiff).
  - vm_compute. reflexivity.
  - reflexivity.
  - exists r. rewrite Hq. repeat split; try done; apply Hiff.
Defined.
